(** * graphql-authz: the authorization pipeline around a GraphQL engine

    A shallow embedding of [packages/core/src/wrap-execute-fn.ts] together
    with the parts of the rule executor and of the result cleaner that the
    wrapper calls.  Asynchronous code is modelled over a discrete clock:
    a promise carries the tick at which it settles, [await] moves the clock
    of the wrapper to that tick, and every action of the wrapper is written
    to a trace stamped with the clock. *)

From Stdlib Require Import String List Arith Lia Bool PeanoNat.
Import ListNotations.
Open Scope string_scope.
Open Scope list_scope.

#[local] Set Warnings "-register-all".

(** ** Result data *)

(** A JSON-like response value, the [data] of an [ExecutionResult]. *)
Inductive value : Type :=
| VNull
| VScalar (s : string)
| VList (vs : list value)
| VObject (fields : list (string * value)).

(** The neutral selection tree of a query (named fragments expanded in
    place): a field name and its child selections. *)
Inductive selection : Type :=
| Field (name : string) (selectionSet : list selection).

Definition Document := list selection.

(** What the query compiler needs from a schema: the root type and, per
    (parent type, field), the named type of the field with its list and
    non-null wrappers removed. *)
Record Schema := mkSchema {
  queryType : string;
  fieldTypes : list ((string * string) * string)
}.

(** Thrown values are represented by their message. *)
Definition error := string.

(** ** Promises over a discrete clock *)

Inductive settled (A : Type) : Type :=
| Fulfilled (a : A)
| Rejected (e : error).
Arguments Fulfilled {A} a.
Arguments Rejected {A} e.

Record promise (A : Type) := mkPromise {
  settles_at : nat;
  outcome : settled A
}.
Arguments mkPromise {A} _ _.
Arguments settles_at {A} _.
Arguments outcome {A} _.

(** What a call into user code (a rule, the engine) does: it throws
    synchronously, or it hands back something that settles [latency] ticks
    later (latency 0 for a plain value or an already settled promise). *)
Inductive behaviour (A : Type) : Type :=
| Throws (e : error)
| Settles (latency : nat) (o : settled A).
Arguments Throws {A} e.
Arguments Settles {A} latency o.

Definition denies {A} (b : behaviour A) : bool :=
  match b with
  | Throws _ => true
  | Settles _ (Rejected _) => true
  | Settles _ (Fulfilled _) => false
  end.

(** ** The trace of one execution *)

Inductive phase : Type := PreExec | PostExec.

Inductive event : Type :=
| EvRuleStarted (ph : phase) (i : nat) (p : promise unit)
| EvRuleThrew (ph : phase) (i : nat) (e : error)
| EvProcessError (ph : phase) (e : error)
| EvEngineCalled (doc : Document)
| EvEngineReturned
| EvCleanup.

Record world := mkWorld {
  now : nat;
  trace : list (nat * event)
}.

Definition start : world := mkWorld 0 [].

(** ** A state and exception monad: exceptions keep the state *)

Definition M (A : Type) : Type := world -> (error + A) * world.

Definition ret {A} (a : A) : M A := fun w => (inr a, w).

Definition throw {A} (e : error) : M A := fun w => (inl e, w).

Definition bind {A B} (m : M A) (k : A -> M B) : M B :=
  fun w =>
    match m w with
    | (inl e, w') => (inl e, w')
    | (inr a, w') => k a w'
    end.

Definition try_catch {A} (body : M A) (handler : error -> M A) : M A :=
  fun w =>
    match body w with
    | (inl e, w') => handler e w'
    | (inr a, w') => (inr a, w')
    end.

Definition emit (ev : event) : M unit :=
  fun w => (inr tt, mkWorld (now w) (trace w ++ [(now w, ev)])).

Definition lift {A} (r : error + A) : M A := fun w => (r, w).

Declare Scope monad_scope.
Delimit Scope monad_scope with monad.
Notation "x <- m ;; k" := (bind m (fun x => k))
  (at level 61, m at next level, right associativity) : monad_scope.
Notation "m ;; k" := (bind m (fun _ => k))
  (at level 61, right associativity) : monad_scope.
Notation "'try' b 'catch' h" := (try_catch b h)
  (at level 60, b at level 61, h at level 0) : monad_scope.
Open Scope monad_scope.

(** [await p]: the caller resumes when [p] has settled; a rejection is
    rethrown at the caller. *)
Definition await {A} (p : promise A) : M A :=
  fun w =>
    let w' := mkWorld (Nat.max (now w) (settles_at p)) (trace w) in
    match outcome p with
    | Fulfilled a => (inr a, w')
    | Rejected e => (inl e, w')
    end.

(** Calling user code at the current tick. *)
Definition invoke {A} (b : behaviour A) : M (promise A) :=
  fun w =>
    match b with
    | Throws e => (inl e, w)
    | Settles latency o => (inr (mkPromise (now w + latency) o), w)
    end.

(** ** [Promise.all] *)

(** The earliest rejection among the promises; of two rejections at the
    same tick the one earlier in the list wins. *)
Fixpoint first_rejection {A} (ps : list (promise A)) : option (nat * error) :=
  match ps with
  | [] => None
  | p :: ps' =>
      match outcome p, first_rejection ps' with
      | Fulfilled _, r => r
      | Rejected e, None => Some (settles_at p, e)
      | Rejected e, Some (t, e') =>
          if Nat.ltb t (settles_at p) then Some (t, e') else Some (settles_at p, e)
      end
  end.

Fixpoint fulfilled_values {A} (ps : list (promise A)) : list A :=
  match ps with
  | [] => []
  | p :: ps' =>
      match outcome p with
      | Fulfilled a => a :: fulfilled_values ps'
      | Rejected _ => fulfilled_values ps'
      end
  end.

Definition latest {A} (ps : list (promise A)) : nat :=
  fold_right Nat.max 0 (map settles_at ps).

(** [Promise.all(ps)] rejects as soon as one of [ps] rejects and fulfils
    once all of them are fulfilled. *)
Definition Promise_all {A} (ps : list (promise A)) : promise (list A) :=
  match first_rejection ps with
  | Some (t, e) => mkPromise t (Rejected e)
  | None => mkPromise (latest ps) (Fulfilled (fulfilled_values ps))
  end.

(** ** The compiled rule plan *)

Record RuleConfig := mkRuleConfig {
  fieldArgs : value
}.

(** A pre-execution rule instance: [execute(context, fieldArgs)]. *)
Record PreExecutionRule := mkPreRule {
  pre_name : string;
  pre_config : RuleConfig;
  pre_execute : value -> value -> behaviour unit
}.

(** Modelled from the spec: a post-execution rule instance of the
    Compiled Rule Plan (rules-compiler.ts is not among the sources):
    [execute(context, fieldArgs, objectValue, wholeResult)], the path of
    its field in the selection tree and the extra fields it needs. *)
Record PostExecutionRule := mkPostRule {
  post_name : string;
  post_config : RuleConfig;
  post_path : list string;
  post_selectionSet : list selection;
  post_execute : value -> value -> value -> value -> behaviour unit
}.

(** The plan of one query: [compiledRules.preExecutionRules] as the
    wrapper reads it, and the post-execution instances. *)
Record CompiledRules := mkCompiledRules {
  preExecutionRules : list PreExecutionRule;
  postExecutionRules : list PostExecutionRule
}.

(** ** Calling rules *)

(** One call of [rule.execute] in phase [ph]: instance number [i] of the
    phase either throws or leaves a promise behind. *)
Definition call (ph : phase) (i : nat) (b : behaviour unit) : M (promise unit) :=
  match b with
  | Throws e => emit (EvRuleThrew ph i e) ;; throw e
  | Settles _ _ => p <- invoke b ;; emit (EvRuleStarted ph i p) ;; ret p
  end.

(** [xs.map(x => f(x))] where [f] has effects: left to right, and a throw
    stops the loop. *)
Fixpoint mapM_from {A B} (f : nat -> A -> M B) (i : nat) (xs : list A)
  : M (list B) :=
  match xs with
  | [] => ret []
  | x :: xs' =>
      y <- f i x ;;
      ys <- mapM_from f (S i) xs' ;;
      ret (y :: ys)
  end.

Definition mapM {A B} (f : nat -> A -> M B) (xs : list A) : M (list B) :=
  mapM_from f 0 xs.

(** ** Rule executor, post-execution traversal *)

(** A step of a concrete path into the result data. *)
Inductive step : Type :=
| Key (name : string)
| Index (i : nat).

Fixpoint lookup (k : string) (fields : list (string * value)) : option value :=
  match fields with
  | [] => None
  | (k', v) :: fields' => if String.eqb k k' then Some v else lookup k fields'
  end.

Section FlatMapI.
Context {A B : Type} (f : nat -> A -> list B).

(** [flat_map] with the position of each element, counted from [i]. *)
Fixpoint flat_mapi (i : nat) (l : list A) : list B :=
  match l with
  | [] => []
  | x :: l' => f i x ++ flat_mapi (S i) l'
  end.

End FlatMapI.

(** Modelled from the spec: the list handling of the rule executor
    (rule-executor.ts is not among the sources).  A value reached by a
    selection path expands through lists of any depth to its non-null
    elements; nulls and empty lists contribute nothing. *)
Fixpoint unwrapLists (at_ : list step) (v : value) : list (list step * value) :=
  match v with
  | VNull => []
  | VList vs => flat_mapi (fun i x => unwrapLists (at_ ++ [Index i]) x) 0 vs
  | _ => [(at_, v)]
  end.

(** Modelled from the spec: resolving a SelectionPath against the result
    data (rule-executor.ts is not among the sources).  Every step selects
    a field in each object occurrence reached so far. *)
Fixpoint resolvePath (path : list string) (at_ : list step) (v : value)
  : list (list step * value) :=
  match path with
  | [] => unwrapLists at_ v
  | f :: path' =>
      flat_map
        (fun occ =>
           match snd occ with
           | VObject fields =>
               match lookup f fields with
               | Some x => resolvePath path' (fst occ ++ [Key f]) x
               | None => []
               end
           | _ => []
           end)
        (unwrapLists at_ v)
  end.

Record evaluation := mkEvaluation {
  ev_rule : PostExecutionRule;
  ev_at : list step;
  ev_objectValue : value
}.

(** Modelled from the spec: the evaluations of one post-instance
    (rule-executor.ts is not among the sources): one per non-null
    occurrence of its path in the data. *)
Definition evaluationsOf (rule : PostExecutionRule) (resultData : value)
  : list evaluation :=
  map (fun occ => mkEvaluation rule (fst occ) (snd occ))
      (resolvePath (post_path rule) [] resultData).

(** Modelled from the spec: the evaluations the post-execution phase
    schedules (rule-executor.ts is not among the sources), instance by
    instance. *)
Definition scheduleEvaluations (rules : CompiledRules) (resultData : value)
  : list evaluation :=
  flat_map (fun rule => evaluationsOf rule resultData)
           (postExecutionRules rules).

(** Modelled from the spec: [executePostExecRules]
    (rule-executor.ts is not among the sources) calls every scheduled
    evaluation with (context, fieldArgs, objectValue, wholeResult) and
    returns their promises. *)
Definition executePostExecRules (context : value) (rules : CompiledRules)
  (resultData : value) : M (list (promise unit)) :=
  mapM (fun i ev =>
          call PostExec i
            (post_execute (ev_rule ev) context
               (fieldArgs (post_config (ev_rule ev)))
               (ev_objectValue ev) resultData))
       (scheduleEvaluations rules resultData).

(** ** Result cleaner *)

Definition fieldName (s : selection) : string :=
  match s with Field name _ => name end.

(** The selections under the fields called [k] of a selection set.  A
    selection set may name a field more than once (fragments are expanded
    in place); the field then selects what all its mentions select. *)
Fixpoint subSelectionsOf (k : string) (sels : list selection) : list selection :=
  match sels with
  | [] => []
  | Field name sub :: sels' =>
      if String.eqb k name then sub ++ subSelectionsOf k sels'
      else subSelectionsOf k sels'
  end.

(** The names of a list, each once, in the order of their first mention:
    the keys of the object an engine builds for a selection set. *)
Fixpoint distinctNames (names : list string) : list string :=
  match names with
  | [] => []
  | n :: names' =>
      n :: filter (fun m => negb (String.eqb n m)) (distinctNames names')
  end.

(** Modelled from the spec: [cleanupResult] (result-cleaner.ts is not among
    the sources).  The original selection tree is walked in parallel with
    the data: each field of the tree keeps its value, once, at the place
    of its first mention, pruned by everything the tree selects under
    that field when it selects something; lists are walked element-wise;
    null and scalars pass through; every other field of an object is
    dropped. *)
Fixpoint cleanupResult (sels : list selection) (v : value) {struct v} : value :=
  match v with
  | VList vs => VList (map (cleanupResult sels) vs)
  | VObject fields =>
      let cleaned :=
        map (fun kx =>
               (fst kx,
                match subSelectionsOf (fst kx) sels with
                | [] => snd kx
                | sub => cleanupResult sub (snd kx)
                end))
            fields in
      VObject
        (flat_map
           (fun name =>
              match lookup name cleaned with
              | Some x => [(name, x)]
              | None => []
              end)
           (distinctNames (map fieldName sels)))
  | _ => v
  end.

(** ** Concrete paths into the data *)

(** The value at a concrete path: keys select fields of objects, indices
    select elements of lists. *)
Fixpoint lookupPath (v : value) (cp : list step) : option value :=
  match cp with
  | [] => Some v
  | Key k :: cp' =>
      match v with
      | VObject fields =>
          match lookup k fields with
          | Some x => lookupPath x cp'
          | None => None
          end
      | _ => None
      end
  | Index i :: cp' =>
      match v with
      | VList vs =>
          match nth_error vs i with
          | Some x => lookupPath x cp'
          | None => None
          end
      | _ => None
      end
  end.

(** The selection path of a concrete path: its keys, list indices
    erased. *)
Fixpoint keysOf (cp : list step) : list string :=
  match cp with
  | [] => []
  | Key k :: cp' => k :: keysOf cp'
  | Index _ :: cp' => keysOf cp'
  end.

(** A concrete occurrence: neither null nor a list. *)
Definition concrete (v : value) : bool :=
  match v with
  | VNull => false
  | VList _ => false
  | _ => true
  end.

(** [x] is a non-null concrete occurrence of the selection path [path] in
    [d], at the concrete path [cp]. *)
Definition occurrence (path : list string) (d : value) (cp : list step)
  (x : value) : Prop :=
  keysOf cp = path /\ lookupPath d cp = Some x /\ concrete x = true.

(** ** Shapes of queries and of data *)

(** [full] selects every field that [s] selects, at every depth. *)
Fixpoint coversField (full : list selection) (s : selection) : bool :=
  match s with
  | Field f sub =>
      existsb (fun g => String.eqb f (fieldName g)) full
      && forallb (coversField (subSelectionsOf f full)) sub
  end.

Definition covers (full orig : list selection) : bool :=
  forallb (coversField full) orig.

(** Everything [full] covers, [full'] covers. *)
Definition extends (full full' : list selection) : Prop :=
  forall s, coversField full s = true -> coversField full' s = true.

Definition names_eqb (a b : list string) : bool :=
  if list_eq_dec string_dec a b then true else false.

(** The data answers the selection set: objects carry exactly the selected
    fields, each once, in the order of their first mention in the
    selection, through lists of any depth; null may stand anywhere; a
    field under which nothing is selected holds any value. *)
Fixpoint answers (sels : list selection) (v : value) {struct v} : bool :=
  match sels with
  | [] => true
  | _ =>
      match v with
      | VNull => true
      | VScalar _ => false
      | VList vs => forallb (answers sels) vs
      | VObject fields =>
          names_eqb (map fst fields) (distinctNames (map fieldName sels))
          && forallb (fun kx => answers (subSelectionsOf (fst kx) sels) (snd kx))
                     fields
      end
  end.

(** [out] is [v] with fields of objects dropped and nothing else
    changed: nulls, scalars, and the length and order of lists stay. *)
Inductive prunedFrom : value -> value -> Prop :=
| pruned_same v : prunedFrom v v
| pruned_list outs vs :
    Forall2 prunedFrom outs vs -> prunedFrom (VList outs) (VList vs)
| pruned_object outFields fields :
    Forall (fun ky => exists x, lookup (fst ky) fields = Some x /\
                                prunedFrom (snd ky) x) outFields ->
    prunedFrom (VObject outFields) (VObject fields).

(** ** Selection augmentor *)

(** Modelled from the spec: the merge of the Selection Augmentor
    (visit-selection-set.ts is not among the sources).  Merging one
    required field into a selection set: an existing field of
    that name gets the required sub-selections merged into its own,
    otherwise the field is added at the end. *)
Fixpoint mergeField (f : string) (sub : list selection)
  (mergeSub : list selection -> list selection) (sels : list selection)
  : list selection :=
  match sels with
  | [] => [Field f sub]
  | Field g gsub :: rest =>
      if String.eqb f g then Field g (mergeSub gsub) :: rest
      else Field g gsub :: mergeField f sub mergeSub rest
  end.

(** Modelled from the spec: merging a required field with its own
    required sub-fields (visit-selection-set.ts is not among the
    sources). *)
Fixpoint mergeSelection (extra : selection) (sels : list selection)
  : list selection :=
  match extra with
  | Field f sub =>
      mergeField f sub
        (fun gsub => fold_left (fun acc e => mergeSelection e acc) sub gsub)
        sels
  end.

(** Modelled from the spec: merging an extra-selection requirement into
    a selection set (visit-selection-set.ts is not among the sources). *)
Definition mergeSelections (extra sels : list selection) : list selection :=
  fold_left (fun acc e => mergeSelection e acc) extra sels.

(** Modelled from the spec: merging a requirement at a SelectionPath
    (visit-selection-set.ts is not among the sources): the path is
    followed through every field of that name, the requirement is merged
    into the selection set it ends in. *)
Fixpoint mergeAt (path : list string) (extra sels : list selection)
  : list selection :=
  match path with
  | [] => mergeSelections extra sels
  | f :: path' =>
      map (fun s =>
             match s with
             | Field g gsub =>
                 if String.eqb g f then Field g (mergeAt path' extra gsub) else s
             end)
          sels
  end.

(** Modelled from the spec: the Selection Augmentor
    (visit-selection-set.ts is not among the sources): the extra
    fields of every post-instance are merged into the selection set of the
    field at the path of the instance. *)
Definition addSelectionSets (doc : Document) (rules : CompiledRules) : Document :=
  fold_left (fun d rule => mergeAt (post_path rule) (post_selectionSet rule) d)
            (postExecutionRules rules) doc.

(** ** wrap-execute-fn.ts *)

Record ExecutionArgs := mkArgs {
  schema : Schema;
  document : Document;
  contextValue : value;
  variableValues : option value;
  operationName : option string
}.

(** [data] is [None] for a null or missing [data]. *)
Record ExecutionResult := mkResult {
  data : option value;
  errors : list error
}.

Definition misconfigured : error :=
  "Something went wrong. processError function must throw an error".

(** What [executeWrapper] closes over: the arguments of [wrapExecuteFn]
    and the imports whose sources are not at hand. *)
Class Environment := mkEnvironment {
  (** the engine being wrapped *)
  executeFn : ExecutionArgs -> behaviour ExecutionResult;
  (** [processError] of the completed config: [inl e] when it throws [e],
      [inr tt] when it returns *)
  processError : error -> error + unit;
  (** imports; [compileRules] and [addSelectionSetsToDocument] are closed
      over the rest of the config ([rules], [authSchema], [directiveName],
      [authSchemaKey]) *)
  getFilteredDocument : Document -> option string -> Document;
  compileRules : Document -> Schema -> value -> CompiledRules;
  addSelectionSetsToDocument :
    Document -> CompiledRules -> Schema -> value -> Document
}.

Section WrapExecuteFn.

Context {env : Environment}.

Definition withDocument (args : ExecutionArgs) (doc : Document) : ExecutionArgs :=
  mkArgs (schema args) doc (contextValue args) (variableValues args)
         (operationName args).

Definition withData (r : ExecutionResult) (d : value) : ExecutionResult :=
  mkResult (Some d) (errors r).

Definition callProcessError (ph : phase) (e : error) : M unit :=
  emit (EvProcessError ph e) ;; lift (processError e).

(** [await executeFn({ ...args, document: fullDocument })] *)
Definition callEngine (args : ExecutionArgs) : M ExecutionResult :=
  emit (EvEngineCalled (document args)) ;;
  p <- invoke (executeFn args) ;;
  r <- await p ;;
  emit EvEngineReturned ;;
  ret r.

Definition callCleanupResult (doc : Document) (d : value) : M value :=
  emit EvCleanup ;; ret (cleanupResult doc d).

(** The function that [wrapExecuteFn] returns.  [getFragmentDefinitions]
    has no counterpart here, the selection tree has its fragments
    expanded.  A [return] inside the second [try] is [Some result];
    leaving its [catch] without a throw is [None], which leads to the
    final [throw]. *)
Definition executeWrapper (args : ExecutionArgs) : M ExecutionResult :=
  let variables :=
    match variableValues args with Some v => v | None => VObject [] end in
  let filteredDocument :=
    getFilteredDocument (document args) (operationName args) in
  let compiledRules := compileRules filteredDocument (schema args) variables in
  let fullDocument :=
    addSelectionSetsToDocument filteredDocument compiledRules (schema args)
      variables in
  (try
     (ps <- mapM (fun i rule =>
                    call PreExec i
                      (pre_execute rule (contextValue args)
                         (fieldArgs (pre_config rule))))
                 (preExecutionRules compiledRules) ;;
      await (Promise_all ps) ;;
      ret tt)
   catch (fun error => callProcessError PreExec error)) ;;
  executionResult <- callEngine (withDocument args fullDocument) ;;
  returned <-
    (try
       (match data executionResult with
        | Some resultData =>
            executionPromises <-
              executePostExecRules (contextValue args) compiledRules
                resultData ;;
            cleanResult <- callCleanupResult filteredDocument resultData ;;
            await (Promise_all executionPromises) ;;
            ret (Some (withData executionResult cleanResult))
        | None => ret (Some executionResult)
        end)
     catch (fun error => callProcessError PostExec error ;; ret None)) ;;
  match returned with
  | Some result => ret result
  | None => throw misconfigured
  end.

(** The constants computed at the top of [executeWrapper]. *)
Definition variablesOf (args : ExecutionArgs) : value :=
  match variableValues args with Some v => v | None => VObject [] end.

Definition filteredDocumentOf (args : ExecutionArgs) : Document :=
  getFilteredDocument (document args) (operationName args).

Definition compiledRulesOf (args : ExecutionArgs) : CompiledRules :=
  compileRules (filteredDocumentOf args) (schema args) (variablesOf args).

Definition fullDocumentOf (args : ExecutionArgs) : Document :=
  addSelectionSetsToDocument (filteredDocumentOf args) (compiledRulesOf args)
    (schema args) (variablesOf args).

(** How each compiled rule instance behaves when the wrapper calls it. *)
Definition preBehaviours (args : ExecutionArgs) : list (behaviour unit) :=
  map (fun rule =>
         pre_execute rule (contextValue args) (fieldArgs (pre_config rule)))
      (preExecutionRules (compiledRulesOf args)).

Definition postBehaviours (args : ExecutionArgs) (resultData : value)
  : list (behaviour unit) :=
  map (fun ev =>
         post_execute (ev_rule ev) (contextValue args)
           (fieldArgs (post_config (ev_rule ev)))
           (ev_objectValue ev) resultData)
      (scheduleEvaluations (compiledRulesOf args) resultData).

Definition engineBehaviour (args : ExecutionArgs) : behaviour ExecutionResult :=
  executeFn (withDocument args (fullDocumentOf args)).

(** The three stages of [executeWrapper]. *)
Definition prePhase (args : ExecutionArgs) : M unit :=
  try
    (ps <- mapM (fun i rule =>
                   call PreExec i
                     (pre_execute rule (contextValue args)
                        (fieldArgs (pre_config rule))))
                (preExecutionRules (compiledRulesOf args)) ;;
     await (Promise_all ps) ;;
     ret tt)
  catch (fun error => callProcessError PreExec error).

Definition postPhase (args : ExecutionArgs) (executionResult : ExecutionResult)
  : M (option ExecutionResult) :=
  try
    (match data executionResult with
     | Some resultData =>
         executionPromises <-
           executePostExecRules (contextValue args) (compiledRulesOf args)
             resultData ;;
         cleanResult <- callCleanupResult (filteredDocumentOf args) resultData ;;
         await (Promise_all executionPromises) ;;
         ret (Some (withData executionResult cleanResult))
     | None => ret (Some executionResult)
     end)
  catch (fun error => callProcessError PostExec error ;; ret None).

Definition policyThrows : Prop := forall e, exists e', processError e = inl e'.

End WrapExecuteFn.

Definition wrapExecuteFn (env : Environment) : ExecutionArgs -> M ExecutionResult :=
  executeWrapper (env := env).

(** Running the wrapper from tick 0 with an empty trace. *)
Definition run {A} (m : M A) : (error + A) * world := m start.

(** ** Reading a run *)

Definition isEngineCall (ev : event) : bool :=
  match ev with EvEngineCalled _ => true | _ => false end.

Definition engineInvoked (w : world) : bool :=
  existsb (fun te => isEngineCall (snd te)) (trace w).

(** What [mapM (call ph)] leaves in the trace and returns when it runs at
    tick [t], as functions of the behaviours of the rules called. *)
Fixpoint startEvents (ph : phase) (t i : nat) (bs : list (behaviour unit))
  : list (nat * event) :=
  match bs with
  | [] => []
  | Throws e :: _ => [(t, EvRuleThrew ph i e)]
  | Settles l o :: bs' =>
      (t, EvRuleStarted ph i (mkPromise (t + l) o)) :: startEvents ph t (S i) bs'
  end.

Fixpoint startResult (t : nat) (bs : list (behaviour unit))
  : error + list (promise unit) :=
  match bs with
  | [] => inr []
  | Throws e :: _ => inl e
  | Settles l o :: bs' =>
      match startResult t bs' with
      | inl e => inl e
      | inr ps => inr (mkPromise (t + l) o :: ps)
      end
  end.

(** The phase join: all rules of a phase are called at tick [t], then
    [Promise.all] of their promises is awaited.  The result is what the
    [await] yields and the tick at which the wrapper resumes. *)
Definition joined (t : nat) (bs : list (behaviour unit)) : (error + unit) * nat :=
  match startResult t bs with
  | inl e => (inl e, t)
  | inr ps =>
      match first_rejection ps with
      | Some (t', e) => (inl e, Nat.max t t')
      | None => (inr tt, Nat.max t (latest ps))
      end
  end.

(** [x] occurs before [y] in a trace. *)
Definition precedes {A} (x y : A) (l : list A) : Prop :=
  exists l1 l2 l3, l = l1 ++ x :: l2 ++ y :: l3.

(** The claim C5 on a run: whenever a failure is handed to the policy,
    every evaluation started in that phase has settled by then, and
    nothing that was started is still pending when the operation ends. *)
Definition awaitsSiblings (r : (error + ExecutionResult) * world) : Prop :=
  forall ph t e,
    In (t, EvProcessError ph e) (trace (snd r)) ->
    forall t0 i p,
      In (t0, EvRuleStarted ph i p) (trace (snd r)) -> settles_at p <= t.

Definition nothingPending (r : (error + ExecutionResult) * world) : Prop :=
  forall t0 ph i p,
    In (t0, EvRuleStarted ph i p) (trace (snd r)) -> settles_at p <= now (snd r).

(** The claim C6 on a run: when the pruner runs, every post-execution
    evaluation has been fulfilled by then. *)
Definition prunesAfterPostChecks (r : (error + ExecutionResult) * world) : Prop :=
  forall t,
    In (t, EvCleanup) (trace (snd r)) ->
    forall t0 i p,
      In (t0, EvRuleStarted PostExec i p) (trace (snd r)) ->
      outcome p = Fulfilled tt /\ settles_at p <= t.

(** The calls of the engine in a trace. *)
Definition engineCalls (w : world) : list (nat * event) :=
  filter (fun te => isEngineCall (snd te)) (trace w).

Definition isPolicyCall (ph : phase) (ev : event) : bool :=
  match ev, ph with
  | EvProcessError PreExec _, PreExec => true
  | EvProcessError PostExec _, PostExec => true
  | _, _ => false
  end.

(** The calls of [processError] from the [catch] of phase [ph]. *)
Definition policyCalls (ph : phase) (w : world) : list (nat * event) :=
  filter (fun te => isPolicyCall ph (snd te)) (trace w).

(** What happens only inside the second [try]: post-execution rules,
    the cleaner, the second [catch]. *)
Definition isPostActivity (ev : event) : bool :=
  match ev with
  | EvRuleStarted PostExec _ _ => true
  | EvRuleThrew PostExec _ _ => true
  | EvProcessError PostExec _ => true
  | EvCleanup => true
  | _ => false
  end.

Definition throwsSync (b : behaviour unit) : bool :=
  match b with Throws _ => true | Settles _ _ => false end.

Definition latencyOf (b : behaviour unit) : nat :=
  match b with Throws _ => 0 | Settles l _ => l end.

(** The latency of the slowest of the rules. *)
Definition slowest (bs : list (behaviour unit)) : nat :=
  fold_right Nat.max 0 (map latencyOf bs).

(** ** Query compiler *)

(** Modelled from the spec: a registered rule (the rule classes are not
    among the sources), a tagged variant: [pre] rules see the context and
    the arguments, [post] rules also the object value and the whole
    result, and may require extra fields. *)
Inductive RuleDefinition : Type :=
| PreRule (name : string) (execute : value -> value -> behaviour unit)
| PostRule (name : string)
    (execute : value -> value -> value -> value -> behaviour unit)
    (selectionSet : list selection).

(** Modelled from the spec: the tables of the Rule Binder, with the rule
    names already resolved in the registry. *)
Record Bindings := mkBindings {
  typeRules : list (string * list RuleDefinition);
  fieldRules : list ((string * string) * list RuleDefinition)
}.

(** The static named type of a field of [parent]. *)
Definition fieldType (s : Schema) (parent f : string) : option string :=
  match find (fun e => String.eqb (fst (fst e)) parent
                       && String.eqb (snd (fst e)) f) (fieldTypes s) with
  | Some e => Some (snd e)
  | None => None
  end.

(** Lookup in the binding tables. *)
Definition typeRulesFor (b : Bindings) (T : string) : list RuleDefinition :=
  flat_map (fun e => if String.eqb (fst e) T then snd e else []) (typeRules b).

Definition fieldRulesFor (b : Bindings) (parent f : string) : list RuleDefinition :=
  flat_map (fun e => if String.eqb (fst (fst e)) parent
                        && String.eqb (snd (fst e)) f
                     then snd e else [])
           (fieldRules b).

(** Modelled from the spec: the walk of the Query Compiler
    (rules-compiler.ts is not among the sources).  At each field the
    rules bound to (parent type, field) come first, then the rules bound
    to the named return type; each is located at the path of the field;
    the walk goes on in the nested selection set. *)
Fixpoint locateRules (s : Schema) (b : Bindings) (parent : string)
  (path : list string) (sel : selection) : list (list string * RuleDefinition) :=
  match sel with
  | Field f sub =>
      match fieldType s parent f with
      | Some T =>
          map (pair (path ++ [f])) (fieldRulesFor b parent f ++ typeRulesFor b T)
          ++ flat_map (locateRules s b T (path ++ [f])) sub
      | None => []
      end
  end.

(** Modelled from the spec: the Compiled Rule Plan of a query
    (rules-compiler.ts is not among the sources).  The neutral
    selection tree carries no arguments, so every instance gets [args]. *)
Definition compilePlan (s : Schema) (b : Bindings) (args : value) (doc : Document)
  : CompiledRules :=
  let located := flat_map (locateRules s b (queryType s) []) doc in
  mkCompiledRules
    (flat_map (fun lr =>
                 match snd lr with
                 | PreRule name execute =>
                     [mkPreRule name (mkRuleConfig args) execute]
                 | PostRule _ _ _ => []
                 end) located)
    (flat_map (fun lr =>
                 match snd lr with
                 | PreRule _ _ => []
                 | PostRule name execute selectionSet =>
                     [mkPostRule name (mkRuleConfig args) (fst lr) selectionSet
                        execute]
                 end) located).


(** ** Counting evaluations *)







(** ** The scenarios of __tests__/post-exec-rules/list.test.ts *)

Module ListTest.

Definition rawSchema : Schema :=
  mkSchema "Query"
    [ (("Post", "id"), "ID"); (("Post", "title"), "String");
      (("Post", "owner"), "User"); (("Post", "comments"), "Comment");
      (("User", "id"), "ID"); (("User", "email"), "String");
      (("User", "posts"), "Post"); (("User", "comments"), "Comment");
      (("User", "likes"), "Like"); (("User", "likesListOfLists"), "Like");
      (("User", "stringsListOfLists"), "String");
      (("Comment", "id"), "ID"); (("Comment", "text"), "String");
      (("Comment", "owner"), "User"); (("Comment", "post"), "Post");
      (("Like", "id"), "ID"); (("Like", "post"), "Post");
      (("Query", "user"), "User"); (("Query", "userWithLikes"), "User");
      (("Query", "userWithNullPosts"), "User");
      (("Query", "userWithCommentsAndLikesListOfLists"), "User");
      (("Query", "userWithPostsAndLikesListOfLists"), "User");
      (("Query", "userWithPostsAndStringsListOfLists"), "User") ].

Definition FailingPostExecRule : RuleDefinition :=
  PostRule "FailingPostExecRule"
    (fun _ _ _ _ => Settles 1 (Rejected "UnauthorizedError")) [].

Definition PassingPostExecRule : RuleDefinition :=
  PostRule "PassingPostExecRule" (fun _ _ _ _ => Settles 1 (Fulfilled tt)) [].

(** [Comment @authz(rules: [FailingPostExecRule])],
    [Like @authz(rules: [PassingPostExecRule])] *)
Definition bindings : Bindings :=
  mkBindings [("Comment", [FailingPostExecRule]); ("Like", [PassingPostExecRule])]
             [].

Definition leaf (name : string) : selection := Field name [].

Definition userQuery : Document :=
  [Field "user" [Field "posts" [leaf "id"]; Field "comments" [leaf "id"]]].

Definition userWithNullPostsQuery : Document :=
  [Field "userWithNullPosts"
     [Field "posts" [leaf "id"]; Field "comments" [leaf "id"]]].

Definition userCommentsAndLikesListOfListsQuery : Document :=
  [Field "userWithCommentsAndLikesListOfLists"
     [Field "likesListOfLists" [leaf "id"]; Field "comments" [leaf "id"]]].

Definition userPostsAndLikesListOfListsQuery : Document :=
  [Field "userWithPostsAndLikesListOfLists"
     [Field "likesListOfLists" [leaf "id"]; Field "posts" [leaf "id"]]].

Definition userPostsAndStringsListOfListsQuery : Document :=
  [Field "userWithPostsAndStringsListOfLists"
     [leaf "stringsListOfLists"; Field "posts" [leaf "id"]]].

Definition userLikesQuery : Document :=
  [Field "userWithLikes"
     [Field "likes" [Field "post" [Field "comments" [leaf "id"]]]]].

Definition obj_id (id : string) : value := VObject [("id", VScalar id)].

(** The mocks of the test server, per root field. *)
Definition mocks : list (string * value) :=
  [ ("user",
     VObject [("posts", VList []); ("comments", VList [obj_id "comment_id"])]);
    ("userWithNullPosts",
     VObject [("posts", VNull); ("comments", VList [obj_id "comment_id"])]);
    ("userWithLikes", VObject [("likes", VList [])]);
    ("userWithCommentsAndLikesListOfLists",
     VObject
       [("likesListOfLists",
         VList [VList [VList [obj_id "like_id01"; obj_id "like_id02"]];
                VList [VList [obj_id "like_id03"; obj_id "like_id04"]]]);
        ("comments", VList [obj_id "comment_id"])]);
    ("userWithPostsAndLikesListOfLists",
     VObject
       [("likesListOfLists",
         VList [VList [VList [obj_id "like_id01"; obj_id "like_id02"];
                       VList [obj_id "like_id03"; obj_id "like_id04"]]]);
        ("posts", VList [obj_id "post_id"])]);
    ("userWithPostsAndStringsListOfLists",
     VObject
       [("stringsListOfLists",
         VList [VList [VList [VScalar "test01"; VScalar "test02"];
                       VList [VScalar "test03"; VScalar "test04"]];
                VList [VList [VScalar "test05"]]]);
        ("posts", VList [obj_id "post_id"])]) ].

(** The mocked engine answers the root fields of the document it is given
    from [mocks], one tick later. *)
Definition mockExecute (args : ExecutionArgs) : behaviour ExecutionResult :=
  Settles 1
    (Fulfilled
       (mkResult
          (Some (VObject
                   (flat_map
                      (fun sel =>
                         match lookup (fieldName sel) mocks with
                         | Some v => [(fieldName sel, v)]
                         | None => []
                         end)
                      (document args))))
          [])).

(** A policy that rethrows what it is given, and one that returns. *)
Definition rethrow (e : error) : error + unit := inl e.
Definition swallow (e : error) : error + unit := inr tt.

Definition operation (query : Document) : ExecutionArgs :=
  mkArgs rawSchema query VNull None None.

(** The documents of the tests hold one operation. *)
Definition wholeDocument (doc : Document) (operationName : option string)
  : Document := doc.

Definition augment (doc : Document) (rules : CompiledRules) (s : Schema)
  (variables : value) : Document := addSelectionSets doc rules.

Definition compile (b : Bindings) (doc : Document) (s : Schema)
  (variables : value) : CompiledRules :=
  compilePlan s b (VObject []) doc.

(** The server of the tests, with bindings [b] and the error policy
    [policy]. *)
Definition testEnv (b : Bindings) (policy : error -> error + unit) : Environment :=
  mkEnvironment mockExecute policy wholeDocument (compile b) augment.

Definition serverWith (b : Bindings) (policy : error -> error + unit)
  (query : Document) : (error + ExecutionResult) * world :=
  run (wrapExecuteFn (testEnv b policy) (operation query)).

Definition server := serverWith bindings.

(** How often the rule called [name] is evaluated for [query]. *)
Definition calledTimes (name : string) (query : Document) : nat :=
  match mockExecute (operation query) with
  | Settles _ (Fulfilled r) =>
      match data r with
      | Some d =>
          length
            (filter (fun ev => String.eqb (post_name (ev_rule ev)) name)
               (scheduleEvaluations
                  (compilePlan rawSchema bindings (VObject []) query) d))
      | None => 0
      end
  | _ => 0
  end.

End ListTest.


(** ** A scenario with pre-execution rules

    The schema, queries and mocks of list.test.ts, with two pre-execution
    rules on the root field: one passes after 3 ticks, one denies after 1
    tick. *)

Module PreTest.

Definition SlowPassingPreExecRule : RuleDefinition :=
  PreRule "SlowPassingPreExecRule" (fun _ _ => Settles 3 (Fulfilled tt)).

Definition FailingPreExecRule : RuleDefinition :=
  PreRule "FailingPreExecRule"
    (fun _ _ => Settles 1 (Rejected "UnauthorizedError")).

Definition bindings : Bindings :=
  mkBindings
    [("Like", [ListTest.PassingPostExecRule])]
    [(("Query", "userWithPostsAndLikesListOfLists"),
      [SlowPassingPreExecRule; FailingPreExecRule])].

Definition query : Document := ListTest.userPostsAndLikesListOfListsQuery.

Definition server (policy : error -> error + unit)
  : (error + ExecutionResult) * world :=
  ListTest.serverWith bindings policy query.

(** The data the mocked engine answers [query] with. *)
Definition answer : value :=
  VObject
    [("userWithPostsAndLikesListOfLists",
      VObject
        [("likesListOfLists",
          VList [VList [VList [ListTest.obj_id "like_id01";
                               ListTest.obj_id "like_id02"];
                        VList [ListTest.obj_id "like_id03";
                               ListTest.obj_id "like_id04"]]]);
         ("posts", VList [ListTest.obj_id "post_id"])])].

End PreTest.

(** ** A scenario with injected fields

    A rule on [Post] that needs the title and the owner of the post, on
    the query of the last test of list.test.ts, which selects only the id
    of the posts. *)

Module PruneTest.

Definition CanReadPost : RuleDefinition :=
  PostRule "CanReadPost" (fun _ _ _ _ => Settles 1 (Fulfilled tt))
    [Field "title" []; Field "owner" [Field "id" []]].

Definition bindings : Bindings := mkBindings [("Post", [CanReadPost])] [].

Definition query : Document := ListTest.userPostsAndStringsListOfListsQuery.

Definition strings : value :=
  VList [VList [VList [VScalar "test01"; VScalar "test02"];
                VList [VScalar "test03"; VScalar "test04"]];
         VList [VList [VScalar "test05"]]].

(** What the engine answers to the augmented document. *)
Definition fetched : value :=
  VObject
    [("userWithPostsAndStringsListOfLists",
      VObject
        [("stringsListOfLists", strings);
         ("posts",
          VList [VObject [("id", VScalar "post_id");
                          ("title", VScalar "Hello");
                          ("owner", VObject [("id", VScalar "user_id")])]])])].

(** What the client gets. *)
Definition returned : value :=
  VObject
    [("userWithPostsAndStringsListOfLists",
      VObject
        [("stringsListOfLists", strings);
         ("posts", VList [VObject [("id", VScalar "post_id")]])])].

Definition execute (args : ExecutionArgs) : behaviour ExecutionResult :=
  Settles 1 (Fulfilled (mkResult (Some fetched) [])).

Definition pruneEnv : Environment :=
  mkEnvironment execute ListTest.rethrow ListTest.wholeDocument
    (ListTest.compile bindings) ListTest.augment.

Definition server : (error + ExecutionResult) * world :=
  run (wrapExecuteFn pruneEnv (ListTest.operation query)).

End PruneTest.

(** ** Scenarios in which a rule has two instances at one path

    The first test of list.test.ts with [comments] selected twice, as it is
    when a fragment that selects the comments is spread next to the
    field; and the very query of that test with the rule on [Comment]
    also bound to the field [User.comments]. *)

Module TwiceTest.

Definition query : Document :=
  [Field "user"
     [Field "comments" [Field "id" []]; Field "comments" [Field "id" []]]].

Definition bindings : Bindings :=
  mkBindings [("Comment", [ListTest.FailingPostExecRule])]
             [(("User", "comments"), [ListTest.FailingPostExecRule])].

(** The data of the mocked engine for the root field [user]. *)
Definition answer : value :=
  VObject
    [("user",
      VObject [("posts", VList []);
               ("comments", VList [ListTest.obj_id "comment_id"])])].


End TwiceTest.

(** ** A scenario in which only one of two bound types occurs

    The query and the rules of "should handle failing list of lists", on
    data with four likes and no comment: the rule on [Like] passes, the
    rule on [Comment] always denies. *)

Module MixedTest.

Definition query : Document := ListTest.userCommentsAndLikesListOfListsQuery.

Definition answer : value :=
  VObject
    [("userWithCommentsAndLikesListOfLists",
      VObject
        [("likesListOfLists",
          VList [VList [VList [ListTest.obj_id "like_id01";
                               ListTest.obj_id "like_id02"]];
                 VList [VList [ListTest.obj_id "like_id03";
                               ListTest.obj_id "like_id04"]]]);
         ("comments", VList [])])].

Definition execute (args : ExecutionArgs) : behaviour ExecutionResult :=
  Settles 1 (Fulfilled (mkResult (Some answer) [])).

Definition mixedEnv : Environment :=
  mkEnvironment execute ListTest.rethrow ListTest.wholeDocument
    (ListTest.compile ListTest.bindings) ListTest.augment.

Definition server : (error + ExecutionResult) * world :=
  run (wrapExecuteFn mixedEnv (ListTest.operation query)).

End MixedTest.

(** ** A scenario with a field selected twice

    The rule of [PruneTest] on a query that selects [posts] twice, as it
    does when a fragment that selects the title of the posts is spread
    next to a field that selects their id. *)

Module FragmentTest.

Definition query : Document :=
  [Field "userWithPostsAndStringsListOfLists"
     [Field "posts" [Field "id" []];
      Field "stringsListOfLists" [];
      Field "posts" [Field "title" []]]].

(** What the engine answers to the augmented document. *)
Definition fetched : value :=
  VObject
    [("userWithPostsAndStringsListOfLists",
      VObject
        [("posts",
          VList [VObject [("id", VScalar "post_id");
                          ("title", VScalar "Hello");
                          ("owner", VObject [("id", VScalar "user_id")])]]);
         ("stringsListOfLists", PruneTest.strings)])].

(** What the client gets. *)
Definition returned : value :=
  VObject
    [("userWithPostsAndStringsListOfLists",
      VObject
        [("posts",
          VList [VObject [("id", VScalar "post_id");
                          ("title", VScalar "Hello")]]);
         ("stringsListOfLists", PruneTest.strings)])].

Definition execute (args : ExecutionArgs) : behaviour ExecutionResult :=
  Settles 1 (Fulfilled (mkResult (Some fetched) [])).

Definition fragmentEnv : Environment :=
  mkEnvironment execute ListTest.rethrow ListTest.wholeDocument
    (ListTest.compile PruneTest.bindings) ListTest.augment.

Definition server : (error + ExecutionResult) * world :=
  run (wrapExecuteFn fragmentEnv (ListTest.operation query)).

End FragmentTest.

(** ** A scenario with a rule that throws synchronously

    Three pre-execution rules on the root field: the first returns a
    promise, the second throws before returning one, the third would
    pass. *)

Module SyncTest.

Definition ThrowingPreExecRule : RuleDefinition :=
  PreRule "ThrowingPreExecRule" (fun _ _ => Throws "TypeError").

Definition bindings : Bindings :=
  mkBindings []
    [(("Query", "userWithLikes"),
      [PreTest.SlowPassingPreExecRule; ThrowingPreExecRule;
       PreTest.SlowPassingPreExecRule])].

Definition query : Document := [Field "userWithLikes" [Field "id" []]].

Definition syncEnv : Environment :=
  ListTest.testEnv bindings ListTest.rethrow.

End SyncTest.

(** ** A scenario in which every rule passes

    One pre-execution rule that passes after 3 ticks on the root field,
    the passing rule of the tests on [Like]. *)

Module PassTest.

Definition bindings : Bindings :=
  mkBindings
    [("Like", [ListTest.PassingPostExecRule])]
    [(("Query", "userWithPostsAndLikesListOfLists"),
      [PreTest.SlowPassingPreExecRule])].

Definition passEnv : Environment :=
  ListTest.testEnv bindings ListTest.rethrow.

Definition args : ExecutionArgs := ListTest.operation PreTest.query.

(** An engine that reports errors and no data. *)
Definition failedResult : ExecutionResult :=
  mkResult None ["Cannot query field"].

Definition noDataExecute (a : ExecutionArgs) : behaviour ExecutionResult :=
  Settles 1 (Fulfilled failedResult).

Definition noDataEnv : Environment :=
  mkEnvironment noDataExecute ListTest.rethrow ListTest.wholeDocument
    (ListTest.compile bindings) ListTest.augment.

End PassTest.

(** An engine that throws. *)
Definition throwingExecute (args : ExecutionArgs) : behaviour ExecutionResult :=
  Throws "engine failure".


Definition brokenEngineEnv : Environment :=
  mkEnvironment throwingExecute ListTest.rethrow ListTest.wholeDocument
    (ListTest.compile ListTest.bindings) ListTest.augment.


Lemma mapM_call (ph : phase) {A} (g : A -> behaviour unit) :
  forall xs i w,
    mapM_from (fun i x => call ph i (g x)) i xs w =
    (startResult (now w) (map g xs),
     mkWorld (now w) (trace w ++ startEvents ph (now w) i (map g xs))).
Proof.
  induction xs as [|x xs IH]; intros i w; simpl.
  - unfold ret. rewrite app_nil_r. destruct w; reflexivity.
  - unfold bind at 1. unfold call at 1. destruct (g x) as [e|l o]; simpl.
    + reflexivity.
    + unfold bind at 1. rewrite IH. simpl.
      rewrite <- app_assoc. simpl.
      destruct (startResult (now w) (map g xs)); reflexivity.
Qed.

(** ** The traversal of the rule executor *)

(** Induction on values that reaches the elements of lists and the
    fields of objects. *)
Lemma value_nested_ind (P : value -> Prop) :
  P VNull ->
  (forall s, P (VScalar s)) ->
  (forall vs, Forall P vs -> P (VList vs)) ->
  (forall fields, Forall (fun kv => P (snd kv)) fields -> P (VObject fields)) ->
  forall v, P v.
Proof.
  intros Hnull Hscalar Hlist Hobj.
  fix IH 1. intros [| s | vs | fields].
  - exact Hnull.
  - apply Hscalar.
  - apply Hlist. induction vs as [|x vs IHvs]; constructor; [apply IH|exact IHvs].
  - apply Hobj. induction fields as [|[k x] fields IHf]; constructor;
      [apply IH|exact IHf].
Qed.

Lemma in_flat_mapi {A B} (f : nat -> A -> list B) y :
  forall l i,
    In y (flat_mapi f i l) <->
    exists n x, nth_error l n = Some x /\ In y (f (i + n) x).
Proof.
  induction l as [|a l IH]; intros i; simpl.
  - split; [contradiction|]. intros (n & x & Hn & _). destruct n; discriminate.
  - rewrite in_app_iff, IH. split.
    + intros [H|(n & x & Hn & H)].
      * exists 0, a. rewrite Nat.add_0_r. auto.
      * exists (S n), x. rewrite Nat.add_succ_r. auto.
    + intros (n & x & Hn & H). destruct n as [|n]; simpl in Hn.
      * inversion Hn; subst. rewrite Nat.add_0_r in H. auto.
      * right. exists n, x. rewrite Nat.add_succ_r in H. auto.
Qed.

Lemma lookupPath_app v a b :
  lookupPath v (a ++ b) =
  match lookupPath v a with
  | Some x => lookupPath x b
  | None => None
  end.
Proof.
  revert v. induction a as [|[k|i] a IH]; intros v; simpl; [reflexivity| |].
  - destruct v; try reflexivity. destruct (lookup k fields); [apply IH|reflexivity].
  - destruct v; try reflexivity. destruct (nth_error vs i); [apply IH|reflexivity].
Qed.

Lemma keysOf_app a b : keysOf (a ++ b) = keysOf a ++ keysOf b.
Proof.
  induction a as [|[k|i] a IH]; simpl; [reflexivity| |]; rewrite IH; reflexivity.
Qed.

Lemma keysOf_indices (ns : list nat) : keysOf (map Index ns) = [].
Proof. induction ns; simpl; auto. Qed.

Lemma keysOf_nil cp : keysOf cp = [] -> exists ns, cp = map Index ns.
Proof.
  induction cp as [|[k|i] cp IH]; simpl; intros H.
  - exists []. reflexivity.
  - discriminate.
  - destruct (IH H) as [ns ->]. exists (i :: ns). reflexivity.
Qed.

Lemma keysOf_cons cp f path :
  keysOf cp = f :: path ->
  exists ns rest, cp = map Index ns ++ Key f :: rest /\ keysOf rest = path.
Proof.
  induction cp as [|[k|i] cp IH]; simpl; intros H.
  - discriminate.
  - inversion H; subst. exists [], cp. auto.
  - destruct (IH H) as (ns & rest & -> & Hr). exists (i :: ns), rest. auto.
Qed.

(** The non-null elements of a value behind any depth of lists are the
    concrete values reached by index steps alone. *)
Lemma unwrapLists_spec v : forall at_ cp x,
  In (cp, x) (unwrapLists at_ v) <->
  exists ns, cp = at_ ++ map Index ns /\
             lookupPath v (map Index ns) = Some x /\ concrete x = true.
Proof.
  induction v as [| s | vs IH | fields _] using value_nested_ind;
    intros at_ cp x; simpl.
  - split; [contradiction|]. intros (ns & _ & Hl & Hc).
    destruct ns; simpl in Hl; [inversion Hl; subst|]; discriminate.
  - split.
    + intros [H|[]]. inversion H; subst. exists []. rewrite app_nil_r. auto.
    + intros (ns & -> & Hl & Hc). destruct ns; simpl in Hl; [|discriminate].
      inversion Hl; subst. rewrite app_nil_r. auto.
  - rewrite in_flat_mapi. split.
    + intros (n & a & Hn & Hin).
      rewrite Forall_forall in IH.
      apply (IH a (nth_error_In _ _ Hn)) in Hin.
      destruct Hin as (ns & -> & Hl & Hc).
      exists (n :: ns). simpl. rewrite Hn, <- app_assoc. auto.
    + intros (ns & -> & Hl & Hc). destruct ns as [|n ns]; simpl in Hl.
      * inversion Hl; subst. discriminate.
      * destruct (nth_error vs n) as [a|] eqn:Hn; [|discriminate].
        exists n, a. split; [exact Hn|].
        rewrite Forall_forall in IH.
        apply (IH a (nth_error_In _ _ Hn)).
        exists ns. simpl. rewrite <- app_assoc. auto.
  - split.
    + intros [H|[]]. inversion H; subst. exists []. rewrite app_nil_r. auto.
    + intros (ns & -> & Hl & Hc). destruct ns; simpl in Hl; [|discriminate].
      inversion Hl; subst. rewrite app_nil_r. auto.
Qed.

(** Resolving a selection path yields exactly its occurrences. *)
Lemma resolvePath_spec path : forall at_ v cp x,
  In (cp, x) (resolvePath path at_ v) <->
  exists rel, cp = at_ ++ rel /\ occurrence path v rel x.
Proof.
  unfold occurrence.
  induction path as [|f path IH]; intros at_ v cp x; simpl.
  - rewrite unwrapLists_spec. split.
    + intros (ns & -> & Hl & Hc). exists (map Index ns).
      rewrite keysOf_indices. auto.
    + intros (rel & -> & Hk & Hl & Hc). destruct (keysOf_nil _ Hk) as [ns ->].
      exists ns. auto.
  - rewrite in_flat_map. split.
    + intros ([cp0 o] & Hocc & Hin). simpl in Hin.
      apply unwrapLists_spec in Hocc. destruct Hocc as (ns & -> & Hl & _).
      destruct o as [| | |fields]; try contradiction.
      destruct (lookup f fields) as [y|] eqn:Hf; [|contradiction].
      apply IH in Hin. destruct Hin as (rel & -> & Hk & Hl' & Hc).
      exists (map Index ns ++ Key f :: rel).
      repeat rewrite <- app_assoc. simpl. split; [reflexivity|].
      rewrite keysOf_app, keysOf_indices, lookupPath_app, Hl. simpl.
      rewrite Hk, Hf. auto.
    + intros (rel & -> & Hk & Hl & Hc).
      destruct (keysOf_cons _ _ _ Hk) as (ns & rest & -> & Hr).
      rewrite lookupPath_app in Hl.
      destruct (lookupPath v (map Index ns)) as [o|] eqn:Ho; [|discriminate].
      simpl in Hl. destruct o as [| | |fields]; try discriminate.
      destruct (lookup f fields) as [y|] eqn:Hf; [|discriminate].
      exists (at_ ++ map Index ns, VObject fields). split.
      * apply unwrapLists_spec. exists ns. auto.
      * simpl. rewrite Hf. apply IH. exists rest.
        repeat rewrite <- app_assoc. auto.
Qed.

(** *** No occurrence is reached twice *)

Lemma indices_then_key_inj ns1 ns2 f g r1 r2 :
  map Index ns1 ++ Key f :: r1 = map Index ns2 ++ Key g :: r2 -> ns1 = ns2.
Proof.
  revert ns2. induction ns1 as [|n ns1 IH]; intros [|m ns2]; simpl; intros H;
    try discriminate; [reflexivity|].
  inversion H; subst. f_equal. eauto.
Qed.

Lemma NoDup_fst_app {K V} (l1 l2 : list (K * V)) :
  NoDup (map fst l1) -> NoDup (map fst l2) ->
  (forall k, In k (map fst l1) -> In k (map fst l2) -> False) ->
  NoDup (map fst (l1 ++ l2)).
Proof.
  intros H1 H2 Hd. rewrite map_app. apply NoDup_app; eauto.
Qed.

Lemma NoDup_fst_flat_map {K V K' V'} (g : K * V -> list (K' * V')) :
  forall l,
    NoDup (map fst l) ->
    (forall a, In a l -> NoDup (map fst (g a))) ->
    (forall a b k, In a l -> In b l ->
                   In k (map fst (g a)) -> In k (map fst (g b)) ->
                   fst a = fst b) ->
    NoDup (map fst (flat_map g l)).
Proof.
  induction l as [|a l IH]; simpl; intros Hl Hg Hd; [constructor|].
  inversion Hl as [|? ? Hnotin Hl']; subst.
  apply NoDup_fst_app.
  - apply Hg. auto.
  - apply IH; auto; intros b c k Hb Hc; apply Hd; auto.
  - intros k Hk1 Hk2. apply in_map_iff in Hk2. destruct Hk2 as (y & <- & Hy).
    apply in_flat_map in Hy. destruct Hy as (b & Hb & Hy).
    apply Hnotin. rewrite (Hd a b (fst y)); auto.
    + apply in_map. exact Hb.
    + apply in_map. exact Hy.
Qed.

Lemma NoDup_fst_flat_mapi {A K V} (f : nat -> A -> list (K * V)) :
  forall l i,
    (forall n x, nth_error l n = Some x -> NoDup (map fst (f (i + n) x))) ->
    (forall n m x y k, nth_error l n = Some x -> nth_error l m = Some y ->
                       In k (map fst (f (i + n) x)) ->
                       In k (map fst (f (i + m) y)) -> n = m) ->
    NoDup (map fst (flat_mapi f i l)).
Proof.
  induction l as [|a l IH]; intros i Hf Hd; simpl; [constructor|].
  apply NoDup_fst_app.
  - specialize (Hf 0 a eq_refl). rewrite Nat.add_0_r in Hf. exact Hf.
  - apply IH.
    + intros n x Hn. rewrite Nat.add_succ_comm. apply (Hf (S n) x Hn).
    + intros n m x y k Hn Hm Hk1 Hk2.
      rewrite Nat.add_succ_comm in Hk1, Hk2.
      specialize (Hd (S n) (S m) x y k Hn Hm Hk1 Hk2). lia.
  - intros k Hk1 Hk2. apply in_map_iff in Hk2. destruct Hk2 as (y & <- & Hy).
    apply in_flat_mapi in Hy. destruct Hy as (m & b & Hm & Hy).
    rewrite Nat.add_succ_comm in Hy.
    assert (H0 : 0 = S m); [|discriminate].
    apply (Hd 0 (S m) a b (fst y)); auto.
    + rewrite Nat.add_0_r. exact Hk1.
    + apply in_map. exact Hy.
Qed.

Lemma unwrapLists_NoDup v : forall at_, NoDup (map fst (unwrapLists at_ v)).
Proof.
  induction v as [| s | vs IH | fields _] using value_nested_ind;
    intros at_; simpl; try (repeat constructor; simpl; tauto).
  rewrite Forall_forall in IH.
  apply NoDup_fst_flat_mapi.
  - intros n x Hn. apply IH. eapply nth_error_In; eauto.
  - intros n m x y k _ _ Hk1 Hk2.
    apply in_map_iff in Hk1. destruct Hk1 as ([cp1 x1] & <- & H1).
    apply in_map_iff in Hk2. destruct Hk2 as ([cp2 x2] & Heq & H2).
    simpl in Heq. subst cp2.
    apply unwrapLists_spec in H1. destruct H1 as (ns1 & E1 & _).
    apply unwrapLists_spec in H2. destruct H2 as (ns2 & E2 & _).
    rewrite E1 in E2. repeat rewrite <- app_assoc in E2.
    apply app_inv_head in E2. simpl in E2. inversion E2. reflexivity.
Qed.

Lemma resolvePath_NoDup path : forall at_ v,
  NoDup (map fst (resolvePath path at_ v)).
Proof.
  induction path as [|f path IH]; intros at_ v; simpl.
  - apply unwrapLists_NoDup.
  - apply NoDup_fst_flat_map.
    + apply unwrapLists_NoDup.
    + intros [cp o] _. simpl. destruct o; try constructor.
      destruct (lookup f fields); [apply IH|constructor].
    + intros [cp1 o1] [cp2 o2] k H1 H2 Hk1 Hk2. simpl in *.
      apply unwrapLists_spec in H1. destruct H1 as (ns1 & -> & _).
      apply unwrapLists_spec in H2. destruct H2 as (ns2 & -> & _).
      destruct o1 as [| | |fs1]; try contradiction.
      destruct (lookup f fs1); [|contradiction].
      destruct o2 as [| | |fs2]; try contradiction.
      destruct (lookup f fs2); [|contradiction].
      apply in_map_iff in Hk1. destruct Hk1 as ([c1 x1] & <- & Hc1).
      apply in_map_iff in Hk2. destruct Hk2 as ([c2 x2] & Heq & Hc2).
      simpl in Heq. subst c2.
      apply resolvePath_spec in Hc1. destruct Hc1 as (r1 & E1 & _).
      apply resolvePath_spec in Hc2. destruct Hc2 as (r2 & E2 & _).
      rewrite E1 in E2. repeat rewrite <- app_assoc in E2.
      apply app_inv_head in E2. simpl in E2.
      apply indices_then_key_inj in E2. subst. reflexivity.
Qed.

Lemma evaluationsOf_spec (rule : PostExecutionRule) (resultData : value) ev :
  In ev (evaluationsOf rule resultData) <->
  ev_rule ev = rule /\
  occurrence (post_path rule) resultData (ev_at ev) (ev_objectValue ev).
Proof.
  unfold evaluationsOf. rewrite in_map_iff. split.
  - intros ([cp x] & <- & Hin). simpl. split; [reflexivity|].
    apply resolvePath_spec in Hin. destruct Hin as (rel & -> & Hocc).
    exact Hocc.
  - intros [<- Hocc]. exists (ev_at ev, ev_objectValue ev). split.
    + destruct ev; reflexivity.
    + apply resolvePath_spec. exists (ev_at ev). auto.
Qed.

Lemma evaluationsOf_NoDup (rule : PostExecutionRule) (resultData : value) :
  NoDup (map ev_at (evaluationsOf rule resultData)).
Proof.
  unfold evaluationsOf. rewrite map_map. simpl. apply resolvePath_NoDup.
Qed.



(** *** Counting the evaluations at a concrete path *)

Lemma names_eqb_eq a b : names_eqb a b = true <-> a = b.
Proof.
  unfold names_eqb. destruct (list_eq_dec string_dec a b); split;
    auto; discriminate.
Qed.








(** *** The calls of the post-execution evaluations in a trace *)


(** ** The result cleaner and the augmentor *)

Lemma selection_nested_ind (P : selection -> Prop) :
  (forall f sub, Forall P sub -> P (Field f sub)) ->
  forall s, P s.
Proof.
  intros H. fix IH 1. intros [f sub]. apply H.
  induction sub as [|x sub IHsub]; constructor; [apply IH|exact IHsub].
Qed.

Lemma lookup_In k fields x : lookup k fields = Some x -> In (k, x) fields.
Proof.
  induction fields as [|[k' v] fields IH]; simpl; [discriminate|].
  destruct (String.eqb k k') eqn:E.
  - apply String.eqb_eq in E. subst. intros H; inversion H; auto.
  - auto.
Qed.

Lemma lookup_map k (g : string * value -> value) fields :
  lookup k (map (fun kx => (fst kx, g kx)) fields) =
  match lookup k fields with
  | Some x => Some (g (k, x))
  | None => None
  end.
Proof.
  induction fields as [|[k' v] fields IH]; simpl; [reflexivity|].
  destruct (String.eqb k k') eqn:E; [|exact IH].
  apply String.eqb_eq in E. subst. reflexivity.
Qed.

Lemma lookup_key k fields :
  In k (map fst fields) -> exists x, lookup k fields = Some x.
Proof.
  induction fields as [|[k' v] fields IH]; simpl; [contradiction|].
  destruct (String.eqb k k') eqn:E; [eauto|].
  intros [H|H]; [|auto]. subst. rewrite String.eqb_refl in E. discriminate.
Qed.

(** The cleaner only drops fields of objects. *)
Lemma cleanupResult_pruned v : forall sels, prunedFrom (cleanupResult sels v) v.
Proof.
  induction v as [| s | vs IH | fields IH] using value_nested_ind;
    intros sels; simpl; try apply pruned_same.
  - apply pruned_list. induction IH as [|x vs Hx _ IHvs]; simpl; constructor; auto.
  - apply pruned_object. apply Forall_forall. intros [k y] Hin.
    apply in_flat_map in Hin. destruct Hin as (name & _ & Hin).
    rewrite lookup_map in Hin.
    destruct (lookup name fields) as [x|] eqn:Hl; [|contradiction].
    destruct Hin as [Heq|[]]. inversion Heq; subst. simpl.
    exists x. split; [exact Hl|].
    rewrite Forall_forall in IH. specialize (IH _ (lookup_In _ _ _ Hl)).
    simpl in IH. destruct (subSelectionsOf k sels);
      [apply pruned_same|apply IH].
Qed.

Lemma distinctNames_In names k : In k (distinctNames names) <-> In k names.
Proof.
  induction names as [|n names IH]; simpl; [tauto|].
  rewrite filter_In, IH. split.
  - intros [H|[H _]]; auto.
  - intros [H|H]; [auto|].
    destruct (String.eqb n k) eqn:E.
    + apply String.eqb_eq in E. auto.
    + right. split; [exact H|reflexivity].
Qed.

Lemma named_In f (sels : list selection) :
  existsb (fun g => String.eqb f (fieldName g)) sels = true <->
  In f (map fieldName sels).
Proof.
  rewrite existsb_exists, in_map_iff. split.
  - intros (g & Hg & E). apply String.eqb_eq in E. eauto.
  - intros (g & E & Hg). exists g. split; [exact Hg|].
    subst. apply String.eqb_refl.
Qed.

Lemma answers_nil v : answers [] v = true.
Proof. destruct v; reflexivity. Qed.

Lemma covers_app full a b :
  covers full (a ++ b) = covers full a && covers full b.
Proof. unfold covers. apply forallb_app. Qed.

(** Below a field, the augmented selection still covers the original
    one. *)
Lemma covers_subSelections k full : forall orig,
  covers full orig = true ->
  covers (subSelectionsOf k full) (subSelectionsOf k orig) = true.
Proof.
  induction orig as [|[f sub] orig IH]; simpl; intros H; [reflexivity|].
  apply andb_prop in H. destruct H as [Hf Ho].
  destruct (String.eqb k f) eqn:E; [|auto].
  apply String.eqb_eq in E. subst f.
  rewrite covers_app. apply andb_true_intro. split; [|auto].
  apply andb_prop in Hf. destruct Hf as [_ Hf]. exact Hf.
Qed.

Lemma kept_fields_all (g : string * value -> value) fields :
  forall names : list string,
    (forall k, In k names -> In k (map fst fields)) ->
    flat_map
      (fun name =>
         match lookup name (map (fun kx => (fst kx, g kx)) fields) with
         | Some x => [(name, x)]
         | None => []
         end) names =
    map (fun name =>
           (name,
            match lookup name fields with
            | Some x => g (name, x)
            | None => VNull
            end)) names.
Proof.
  induction names as [|k names IH]; intros Hc; [reflexivity|]. simpl.
  rewrite lookup_map.
  destruct (lookup_key _ _ (Hc k (or_introl eq_refl))) as [x ->]. simpl.
  f_equal. apply IH. intros k' Hk'. apply Hc. right. exact Hk'.
Qed.

(** On data that answers the augmented selection, the cleaner returns
    data that answers the original selection. *)
Lemma cleanupResult_answers v : forall orig full,
  covers full orig = true ->
  answers full v = true ->
  answers orig (cleanupResult orig v) = true.
Proof.
  induction v as [| s | vs IH | fields IH] using value_nested_ind;
    intros orig full Hcov Hans.
  - destruct orig; reflexivity.
  - destruct orig as [|o orig]; [reflexivity|].
    destruct full as [|f0 full]; [|discriminate].
    simpl in Hcov. destruct o. discriminate.
  - destruct orig as [|o orig]; [reflexivity|].
    destruct full as [|f0 full]; [destruct o; discriminate|].
    simpl in Hans |- *. rewrite forallb_forall in Hans |- *.
    intros y Hy. apply in_map_iff in Hy. destruct Hy as (x & <- & Hx).
    rewrite Forall_forall in IH. apply (IH x Hx _ (f0 :: full)); auto.
  - destruct orig as [|o orig]; [reflexivity|].
    destruct full as [|f0 full]; [destruct o; discriminate|].
    remember (o :: orig) as sels eqn:Es.
    remember (f0 :: full) as fsels eqn:Ef.
    assert (Hans' : names_eqb (map fst fields)
                      (distinctNames (map fieldName fsels)) = true /\
                    forallb (fun kx => answers (subSelectionsOf (fst kx) fsels) (snd kx))
                            fields = true).
    { subst fsels. simpl in Hans. apply andb_prop in Hans. exact Hans. }
    destruct Hans' as [Hkeys Heach]. apply names_eqb_eq in Hkeys.
    rewrite forallb_forall in Heach.
    rewrite Forall_forall in IH.
    pose (g := fun kx : string * value =>
                 match subSelectionsOf (fst kx) sels with
                 | [] => snd kx
                 | sub => cleanupResult sub (snd kx)
                 end).
    assert (Hout :
      cleanupResult sels (VObject fields) =
      VObject (map (fun name =>
                      (name,
                       match lookup name fields with
                       | Some x => g (name, x)
                       | None => VNull
                       end)) (distinctNames (map fieldName sels)))).
    { simpl. f_equal. apply (kept_fields_all g).
      intros k Hk. rewrite Hkeys. apply (proj2 (distinctNames_In _ _)).
      apply (proj1 (distinctNames_In _ _)) in Hk. apply in_map_iff in Hk.
      destruct Hk as ([f sub] & <- & Hs). apply named_In.
      unfold covers in Hcov. rewrite forallb_forall in Hcov.
      specialize (Hcov _ Hs). simpl in Hcov.
      apply andb_prop in Hcov. destruct Hcov as [Hn _]. exact Hn. }
    rewrite Hout.
    assert (Hgoal :
      forallb (fun kx => answers (subSelectionsOf (fst kx) sels) (snd kx))
        (map (fun name =>
                      (name,
                       match lookup name fields with
                       | Some x => g (name, x)
                       | None => VNull
                       end)) (distinctNames (map fieldName sels))) = true).
    { apply forallb_forall. intros [k y] Hky.
      apply in_map_iff in Hky. destruct Hky as (name & Heq & _).
      inversion Heq; subst k y. clear Heq. simpl.
      destruct (lookup name fields) as [x|] eqn:Hl;
        [|destruct (subSelectionsOf name sels); reflexivity].
      unfold g. simpl.
      destruct (subSelectionsOf name sels) as [|s1 sub] eqn:Esub;
        [apply answers_nil|].
      pose proof (lookup_In _ _ _ Hl) as Hx.
      apply (IH _ Hx (s1 :: sub) (subSelectionsOf name fsels)).
      - rewrite <- Esub. apply covers_subSelections. exact Hcov.
      - apply (Heach _ Hx). }
    subst sels. simpl. simpl in Hgoal. rewrite Hgoal.
    rewrite map_map. simpl. rewrite map_id.
    rewrite andb_true_r. apply names_eqb_eq. reflexivity.
Qed.

(** *** The augmentor keeps every field of the original query *)

Lemma subSelectionsOf_app k a b :
  subSelectionsOf k (a ++ b) = subSelectionsOf k a ++ subSelectionsOf k b.
Proof.
  induction a as [|[f sub] a IH]; simpl; [reflexivity|].
  destruct (String.eqb k f); [rewrite IH, app_assoc|]; auto.
Qed.

Lemma named_app f (a b : list selection) :
  existsb (fun g => String.eqb f (fieldName g)) (a ++ b) =
  existsb (fun g => String.eqb f (fieldName g)) a
  || existsb (fun g => String.eqb f (fieldName g)) b.
Proof. apply existsb_app. Qed.

Lemma subSelectionsOf_unnamed k (a : list selection) :
  existsb (fun g => String.eqb k (fieldName g)) a = false ->
  subSelectionsOf k a = [].
Proof.
  induction a as [|[f sub] a IH]; simpl; [reflexivity|].
  intros H. apply orb_false_elim in H. destruct H as [-> H]. auto.
Qed.

Lemma extends_refl a : extends a a.
Proof. intros s H. exact H. Qed.

Lemma extends_trans a b c : extends a b -> extends b c -> extends a c.
Proof. intros H1 H2 s H. auto. Qed.

Lemma extends_named a a' f :
  extends a a' ->
  existsb (fun g => String.eqb f (fieldName g)) a = true ->
  existsb (fun g => String.eqb f (fieldName g)) a' = true.
Proof.
  intros He Hn. specialize (He (Field f [])). simpl in He.
  rewrite Hn in He. specialize (He eq_refl).
  apply andb_prop in He. destruct He as [He _]. exact He.
Qed.

Lemma extends_below a a' f :
  extends a a' -> extends (subSelectionsOf f a) (subSelectionsOf f a').
Proof.
  intros He s Hs.
  destruct (existsb (fun g => String.eqb f (fieldName g)) a) eqn:Hn.
  - specialize (He (Field f [s])). simpl in He.
    rewrite Hn, Hs in He. specialize (He eq_refl).
    apply andb_prop in He. destruct He as [_ He].
    apply andb_prop in He. destruct He as [He _]. exact He.
  - rewrite (subSelectionsOf_unnamed _ _ Hn) in Hs.
    destruct s. discriminate.
Qed.

(** Replacing a part of a selection set by one that covers as much. *)
Lemma extends_app s : forall a a' b b',
  extends a a' -> extends b b' ->
  coversField (a ++ b) s = true -> coversField (a' ++ b') s = true.
Proof.
  induction s as [f sub IH] using selection_nested_ind.
  intros a a' b b' Ha Hb H. simpl in H |- *.
  apply andb_prop in H. destruct H as [Hn Hsub].
  apply andb_true_intro. split.
  - rewrite named_app in Hn |- *. apply orb_true_iff in Hn. apply orb_true_iff.
    destruct Hn as [Hn|Hn]; [left|right]; eapply extends_named; eauto.
  - rewrite subSelectionsOf_app in Hsub |- *.
    rewrite forallb_forall in Hsub |- *. rewrite Forall_forall in IH.
    intros s' Hs'.
    apply (IH s' Hs' (subSelectionsOf f a) (subSelectionsOf f a')
              (subSelectionsOf f b) (subSelectionsOf f b')).
    + apply extends_below. exact Ha.
    + apply extends_below. exact Hb.
    + apply Hsub. exact Hs'.
Qed.

Lemma extends_cons x x' rest rest' :
  extends [x] [x'] -> extends rest rest' -> extends (x :: rest) (x' :: rest').
Proof.
  intros Hx Hr s H. apply (extends_app s [x] [x'] rest rest' Hx Hr H).
Qed.

Lemma extends_field g sub sub' :
  extends sub sub' -> extends [Field g sub] [Field g sub'].
Proof.
  intros He [f fsub] H. simpl in H |- *.
  destruct (String.eqb f g); simpl in *; [|exact H].
  rewrite app_nil_r in *. rewrite forallb_forall in H |- *. auto.
Qed.

Lemma extends_nil a : extends [] a.
Proof. intros [f sub] H. discriminate. Qed.

Lemma mergeField_extends f sub m :
  (forall gsub, extends gsub (m gsub)) ->
  forall sels, extends sels (mergeField f sub m sels).
Proof.
  intros Hm. induction sels as [|[g gsub] rest IH]; simpl.
  - apply extends_nil.
  - destruct (String.eqb f g).
    + apply extends_cons; [apply extends_field, Hm|apply extends_refl].
    + apply extends_cons; [apply extends_refl|exact IH].
Qed.

Lemma fold_extends (step_ : selection -> list selection -> list selection) es :
  Forall (fun e => forall acc, extends acc (step_ e acc)) es ->
  forall acc, extends acc (fold_left (fun acc e => step_ e acc) es acc).
Proof.
  induction 1 as [|e es He _ IH]; intros acc; simpl; [apply extends_refl|].
  eapply extends_trans; [apply He|apply IH].
Qed.

Lemma mergeSelection_extends e : forall sels, extends sels (mergeSelection e sels).
Proof.
  induction e as [f sub IH] using selection_nested_ind.
  intros sels. simpl. apply mergeField_extends.
  intros gsub. apply (fold_extends mergeSelection). exact IH.
Qed.

Lemma mergeAt_extends path extra : forall sels, extends sels (mergeAt path extra sels).
Proof.
  induction path as [|f path IH]; intros sels; simpl.
  - unfold mergeSelections. apply (fold_extends mergeSelection).
    apply Forall_forall. intros e _. apply mergeSelection_extends.
  - induction sels as [|[g gsub] rest IHr]; simpl; [apply extends_refl|].
    apply extends_cons; [|exact IHr].
    destruct (String.eqb g f); [apply extends_field, IH|apply extends_refl].
Qed.

Lemma subSelectionsOf_In f sub s' sels :
  In (Field f sub) sels -> In s' sub -> In s' (subSelectionsOf f sels).
Proof.
  induction sels as [|[g gsub] sels IH]; simpl; [contradiction|].
  intros [Heq|Hin] Hs'.
  - inversion Heq; subst. rewrite String.eqb_refl. apply in_or_app. auto.
  - destruct (String.eqb f g); [apply in_or_app; right|]; auto.
Qed.

Lemma coversField_member s : forall sels, In s sels -> coversField sels s = true.
Proof.
  induction s as [f sub IH] using selection_nested_ind.
  intros sels Hin. simpl. apply andb_true_intro. split.
  - apply existsb_exists. exists (Field f sub). split; [exact Hin|].
    apply String.eqb_refl.
  - rewrite forallb_forall. rewrite Forall_forall in IH.
    intros s' Hs'. apply (IH s' Hs'). eapply subSelectionsOf_In; eauto.
Qed.

Lemma covers_refl sels : covers sels sels = true.
Proof.
  unfold covers. apply forallb_forall. intros s Hs.
  apply coversField_member. exact Hs.
Qed.

(** *** Without injected fields the cleaner changes nothing *)

Lemma distinctNames_NoDup names : NoDup (distinctNames names).
Proof.
  induction names as [|n names IH]; simpl; constructor.
  - rewrite filter_In. intros [_ H]. rewrite String.eqb_refl in H. discriminate.
  - apply NoDup_filter. exact IH.
Qed.

Lemma rebuild_fields (g : string * value -> value) fields :
  NoDup (map fst fields) ->
  (forall kx, In kx fields -> g kx = snd kx) ->
  map (fun name =>
         (name,
          match lookup name fields with
          | Some x => g (name, x)
          | None => VNull
          end)) (map fst fields) = fields.
Proof.
  induction fields as [|[k x] fields IH]; simpl; intros Hnd Hg; [reflexivity|].
  inversion Hnd as [|? ? Hnotin Hnd']; subst.
  rewrite String.eqb_refl. f_equal.
  - f_equal. apply (Hg (k, x)). auto.
  - rewrite <- (IH Hnd') at 2; [|intros kx Hkx; apply Hg; auto].
    apply map_ext_in. intros name Hname.
    destruct (String.eqb name k) eqn:E; [|reflexivity].
    apply String.eqb_eq in E. subst. contradiction.
Qed.

Lemma cleanupResult_noop v : forall sels,
  sels <> [] -> answers sels v = true -> cleanupResult sels v = v.
Proof.
  induction v as [| s | vs IH | fields IH] using value_nested_ind;
    intros sels Hne Hans; try reflexivity.
  - destruct sels as [|s0 sels]; [contradiction|].
    simpl in Hans |- *. f_equal. rewrite forallb_forall in Hans.
    rewrite Forall_forall in IH.
    rewrite <- (map_id vs) at 2. apply map_ext_in. intros x Hx.
    apply IH; auto.
  - destruct sels as [|s0 sels]; [contradiction|].
    remember (s0 :: sels) as ss eqn:Es.
    assert (Hans' : names_eqb (map fst fields)
                      (distinctNames (map fieldName ss)) = true /\
                    forallb (fun kx => answers (subSelectionsOf (fst kx) ss) (snd kx))
                            fields = true).
    { subst ss. simpl in Hans. apply andb_prop in Hans. exact Hans. }
    destruct Hans' as [Hkeys Heach]. apply names_eqb_eq in Hkeys.
    rewrite forallb_forall in Heach. rewrite Forall_forall in IH.
    simpl. f_equal. rewrite <- Hkeys.
    set (g := fun kx : string * value =>
                match subSelectionsOf (fst kx) ss with
                | [] => snd kx
                | sub => cleanupResult sub (snd kx)
                end).
    rewrite (kept_fields_all g) by auto.
    apply (rebuild_fields g).
    + rewrite Hkeys. apply distinctNames_NoDup.
    + intros [k x] Hkx. unfold g. simpl.
      destruct (subSelectionsOf k ss) as [|s1 sub] eqn:Esub; [reflexivity|].
      apply (IH _ Hkx); [discriminate|].
      rewrite <- Esub. apply (Heach _ Hkx).
Qed.

Lemma addSelectionSets_extends rules : forall doc,
  extends doc (addSelectionSets doc rules).
Proof.
  unfold addSelectionSets.
  induction (postExecutionRules rules) as [|rule rs IH]; intros doc; simpl;
    [apply extends_refl|].
  eapply extends_trans; [apply mergeAt_extends|apply IH].
Qed.

(** The augmented document selects everything the client selected. *)
Lemma addSelectionSets_covers doc rules :
  covers (addSelectionSets doc rules) doc = true.
Proof.
  unfold covers. apply forallb_forall. intros s Hs.
  apply addSelectionSets_extends. apply coversField_member. exact Hs.
Qed.

(** *** Facts about [Promise.all] and the phase join *)

Lemma first_rejection_Some {A} (ps : list (promise A)) t e :
  first_rejection ps = Some (t, e) ->
  (exists p, In p ps /\ outcome p = Rejected e /\ settles_at p = t) /\
  (forall q e', In q ps -> outcome q = Rejected e' -> t <= settles_at q).
Proof.
  revert t e. induction ps as [|p ps IH]; intros t e; simpl; [discriminate|].
  destruct (outcome p) as [a|e0] eqn:Ho.
  - intros H. destruct (IH _ _ H) as [[q [Hq1 Hq2]] Hmin]. split.
    + exists q. auto.
    + intros q' e' [->|Hin] Hr; [congruence|eauto].
  - destruct (first_rejection ps) as [[t' e']|] eqn:Hf.
    + destruct (IH _ _ eq_refl) as [[q [Hq1 [Hq2 Hq3]]] Hmin].
      destruct (Nat.ltb t' (settles_at p)) eqn:Hlt; intros H; inversion H; subst.
      * apply Nat.ltb_lt in Hlt. split.
        -- exists q. auto.
        -- intros q' e'' [->|Hin] Hr; [lia|eauto].
      * apply Nat.ltb_ge in Hlt. split.
        -- exists p. auto.
        -- intros q' e'' [->|Hin] Hr; [lia|].
           specialize (Hmin _ _ Hin Hr). lia.
    + intros H; inversion H; subst. split.
      * exists p. auto.
      * intros q' e'' [->|Hin] Hr; [lia|].
        exfalso. clear -Hf Hin Hr. induction ps as [|x ps IH]; [contradiction|].
        simpl in Hf. destruct Hin as [->|Hin].
        -- rewrite Hr in Hf. destruct (first_rejection ps) as [[? ?]|];
             [destruct (Nat.ltb _ _)|]; discriminate.
        -- destruct (outcome x); [auto|].
           destruct (first_rejection ps) as [[? ?]|];
             [destruct (Nat.ltb _ _)|]; discriminate.
Qed.

Lemma first_rejection_None {A} (ps : list (promise A)) :
  first_rejection ps = None ->
  forall p, In p ps -> exists a, outcome p = Fulfilled a.
Proof.
  induction ps as [|x ps IH]; simpl; [contradiction|].
  destruct (outcome x) as [a|e] eqn:Ho.
  - intros H p [->|Hin]; eauto.
  - destruct (first_rejection ps) as [[? ?]|];
      [destruct (Nat.ltb _ _)|]; discriminate.
Qed.

Lemma latest_ge {A} (ps : list (promise A)) p :
  In p ps -> settles_at p <= latest ps.
Proof.
  unfold latest. induction ps as [|x ps IH]; simpl; [contradiction|].
  intros [->|Hin]; [lia|]. specialize (IH Hin). lia.
Qed.

(** The start events of a phase: who was started, when, and with which
    promise. *)
Lemma startEvents_inv ph t bs : forall i t0 ev,
  In (t0, ev) (startEvents ph t i bs) ->
  t0 = t /\
  ((exists j l o, ev = EvRuleStarted ph j (mkPromise (t + l) o) /\
                  nth_error bs (j - i) = Some (Settles l o) /\ i <= j) \/
   (exists j e, ev = EvRuleThrew ph j e /\ startResult t bs = inl e)).
Proof.
  induction bs as [|b bs IH]; intros i t0 ev; simpl; [contradiction|].
  destruct b as [e|l o]; simpl.
  - intros [H|[]]. inversion H; subst. split; [reflexivity|]. right. eauto.
  - intros [H|H].
    + inversion H; subst. split; [reflexivity|]. left.
      exists i, l, o. rewrite Nat.sub_diag. auto.
    + destruct (IH _ _ _ H) as [-> [(j & l' & o' & -> & Hn & Hle)|(j & e & -> & Hr)]];
        (split; [reflexivity|]).
      * left. exists j, l', o'. repeat split; [|lia].
        replace (j - i) with (S (j - S i)) by lia. exact Hn.
      * right. exists j, e. rewrite Hr. auto.
Qed.

Lemma startResult_promises t bs ps :
  startResult t bs = inr ps ->
  forall p, In p ps <->
            exists l o, In (Settles l o) bs /\ p = mkPromise (t + l) o.
Proof.
  revert ps. induction bs as [|b bs IH]; intros ps; simpl.
  - intros H; inversion H; subst. intros p; split; [contradiction|].
    intros (l & o & [] & _).
  - destruct b as [e|l o]; [discriminate|].
    destruct (startResult t bs) as [e|ps'] eqn:Hs; [discriminate|].
    intros H; inversion H; subst. intros p; simpl. rewrite (IH _ eq_refl p).
    split.
    + intros [<-|(l' & o' & Hin & ->)]; eauto 6.
    + intros (l' & o' & [Heq|Hin] & ->); [inversion Heq; auto|eauto 6].
Qed.

Lemma startEvents_started ph t bs ps :
  startResult t bs = inr ps ->
  forall i t0 j p,
    In (t0, EvRuleStarted ph j p) (startEvents ph t i bs) -> In p ps.
Proof.
  intros Hs i t0 j p Hin.
  apply startEvents_inv in Hin.
  destruct Hin as [-> [(j' & l & o & Heq & Hn & _)|(j' & e & Heq & _)]];
    [|discriminate].
  inversion Heq; subst. apply (startResult_promises _ _ _ Hs).
  exists l, o. split; [eapply nth_error_In; eauto|reflexivity].
Qed.

Lemma joined_inr t bs t' :
  joined t bs = (inr tt, t') ->
  exists ps, startResult t bs = inr ps /\ t <= t' /\
    forall p, In p ps -> outcome p = Fulfilled tt /\ settles_at p <= t'.
Proof.
  unfold joined. destruct (startResult t bs) as [e|ps]; [discriminate|].
  destruct (first_rejection ps) as [[t1 e]|] eqn:Hf; [discriminate|].
  intros H; inversion H; subst. exists ps. repeat split; [lia| |].
  - destruct (first_rejection_None _ Hf _ H0) as [[] Ho]. exact Ho.
  - pose proof (latest_ge _ _ H0). lia.
Qed.

Lemma joined_inl t bs e t' :
  joined t bs = (inl e, t') ->
  (startResult t bs = inl e /\ t' = t) \/
  (exists ps, startResult t bs = inr ps /\
     (exists p, In p ps /\ outcome p = Rejected e /\ settles_at p = t') /\
     (forall q e', In q ps -> outcome q = Rejected e' -> t' <= settles_at q)).
Proof.
  unfold joined. destruct (startResult t bs) as [e0|ps] eqn:Hs.
  - intros H; inversion H; subst. auto.
  - destruct (first_rejection ps) as [[t1 e1]|] eqn:Hf; [|discriminate].
    intros H; inversion H; subst. right. exists ps. split; [reflexivity|].
    destruct (first_rejection_Some _ _ _ Hf) as [(p & Hin & Ho & Ht) Hmin].
    assert (Hge : forall q, In q ps -> t <= settles_at q).
    { intros q Hq. apply (startResult_promises _ _ _ Hs) in Hq.
      destruct Hq as (l & o & _ & ->). simpl. lia. }
    split.
    + exists p. repeat split; auto. specialize (Hge _ Hin). lia.
    + intros q e' Hq Hr. specialize (Hmin _ _ Hq Hr). specialize (Hge _ Hq). lia.
Qed.

Lemma joined_denies t bs :
  existsb denies bs = true -> exists e t', joined t bs = (inl e, t').
Proof.
  intros H. destruct (joined t bs) as [[e|[]] t'] eqn:Hj; [eauto|].
  exfalso. apply joined_inr in Hj. destruct Hj as (ps & Hs & _ & Hall).
  apply existsb_exists in H. destruct H as (b & Hin & Hd).
  destruct b as [e|l [[]|e]]; simpl in Hd; try discriminate.
  - clear -Hs Hin. revert ps Hs. induction bs as [|b bs IH]; [contradiction|].
    intros ps. simpl. destruct Hin as [->|Hin]; [discriminate|].
    destruct b; [discriminate|].
    destruct (startResult t bs); [discriminate|]. intros _. eapply IH; eauto.
  - assert (Hp : In (mkPromise (t + l) (Rejected e : settled unit)) ps).
    { apply (startResult_promises _ _ _ Hs). eauto. }
    destruct (Hall _ Hp) as [Ho _]. discriminate.
Qed.

Lemma startResult_settles t bs ps :
  startResult t bs = inr ps ->
  forall b, In b bs -> exists l o, b = Settles l o.
Proof.
  revert ps. induction bs as [|b0 bs IH]; intros ps; simpl; [contradiction|].
  destruct b0 as [e|l o]; [discriminate|].
  destruct (startResult t bs) as [e|ps']; [discriminate|].
  intros _ b [<-|Hin]; eauto.
Qed.

Lemma startEvents_of_promise ph t bs ps :
  startResult t bs = inr ps ->
  forall i p, In p ps -> exists j, In (t, EvRuleStarted ph j p) (startEvents ph t i bs).
Proof.
  revert ps. induction bs as [|b bs IH]; intros ps; simpl.
  - intros H; inversion H; contradiction.
  - destruct b as [e|l o]; [discriminate|].
    destruct (startResult t bs) as [e|ps'] eqn:Hs; [discriminate|].
    intros H; inversion H; subst. intros i p [<-|Hin].
    + exists i. left. reflexivity.
    + destruct (IH _ eq_refl (S i) p Hin) as [j Hj]. exists j. right. exact Hj.
Qed.

Lemma startEvents_of_throw ph t bs e :
  startResult t bs = inl e ->
  forall i, exists j, In (t, EvRuleThrew ph j e) (startEvents ph t i bs).
Proof.
  induction bs as [|b bs IH]; simpl; [discriminate|].
  destruct b as [e0|l o].
  - intros H; inversion H; subst. intros i. exists i. left. reflexivity.
  - destruct (startResult t bs) as [e1|ps]; [|discriminate].
    intros H; inversion H; subst. intros i.
    destruct (IH eq_refl (S i)) as [j Hj]. exists j. right. exact Hj.
Qed.

Lemma startEvents_no_engine ph t i bs :
  existsb (fun te => isEngineCall (snd te)) (startEvents ph t i bs) = false.
Proof.
  apply not_true_is_false. intros H.
  apply existsb_exists in H. destruct H as ([t0 ev] & Hin & Hev).
  apply startEvents_inv in Hin.
  destruct Hin as [_ [(j & l & o & -> & _)|(j & e0 & -> & _)]]; discriminate.
Qed.

(** A failed join, read off the start events of its phase. *)
Lemma joined_failure_events ph tm bs e t1 :
  joined tm bs = (inl e, t1) ->
  (t1 = tm /\ exists i, In (tm, EvRuleThrew ph i e) (startEvents ph tm 0 bs)) \/
  (exists i p,
     In (tm, EvRuleStarted ph i p) (startEvents ph tm 0 bs) /\
     outcome p = Rejected e /\ settles_at p = t1 /\
     forall t' j q e',
       In (t', EvRuleStarted ph j q) (startEvents ph tm 0 bs) ->
       outcome q = Rejected e' -> t1 <= settles_at q).
Proof.
  intros Hj. apply joined_inl in Hj.
  destruct Hj as [[Hs ->]|(ps & Hs & (p & Hp & Ho & Ht) & Hmin)].
  - left. split; [reflexivity|]. apply startEvents_of_throw. exact Hs.
  - right. destruct (startEvents_of_promise ph _ _ _ Hs 0 _ Hp) as [i Hi].
    exists i, p. repeat split; auto.
    intros t' j q e' Hq Hr. eapply Hmin; [|exact Hr].
    eapply startEvents_started; eauto.
Qed.

Lemma joined_passes t bs :
  existsb denies bs = false -> exists t', joined t bs = (inr tt, t').
Proof.
  intros H. unfold joined.
  assert (Hs : exists ps, startResult t bs = inr ps /\
                          forall p, In p ps -> outcome p = Fulfilled tt).
  { induction bs as [|b bs IH]; simpl in *.
    - exists []. split; [reflexivity|contradiction].
    - apply orb_false_elim in H. destruct H as [Hb Hbs].
      destruct (IH Hbs) as (ps & -> & Hall).
      destruct b as [e|l [[]|e]]; simpl in Hb; try discriminate.
      eexists. split; [reflexivity|].
      intros p [<-|Hp]; [reflexivity|auto]. }
  destruct Hs as (ps & -> & Hall).
  destruct (first_rejection ps) as [[t1 e]|] eqn:Hf; [|eauto].
  apply first_rejection_Some in Hf. destruct Hf as [(p & Hp & Ho & _) _].
  rewrite (Hall _ Hp) in Ho. discriminate.
Qed.

Lemma precedes_app_l {A} (x y : A) l l' :
  precedes x y l -> precedes x y (l ++ l').
Proof.
  intros (l1 & l2 & l3 & ->). exists l1, l2, (l3 ++ l').
  repeat (rewrite <- app_assoc; simpl). reflexivity.
Qed.

Lemma precedes_split {A} (x y : A) l l' :
  In x l -> In y l' -> precedes x y (l ++ l').
Proof.
  intros Hx Hy. apply in_split in Hx. destruct Hx as (a1 & a2 & ->).
  apply in_split in Hy. destruct Hy as (b1 & b2 & ->).
  exists a1, (a2 ++ b1), b2.
  repeat (rewrite <- app_assoc; simpl). reflexivity.
Qed.

(** *** Counting events and timing a join *)

Lemma filter_none {A} (f : A -> bool) l : existsb f l = false -> filter f l = [].
Proof.
  induction l as [|x l IH]; simpl; [reflexivity|].
  intros H. apply orb_false_elim in H. destruct H as [-> H]. auto.
Qed.

Lemma startEvents_engineCalls ph t i bs :
  filter (fun te => isEngineCall (snd te)) (startEvents ph t i bs) = [].
Proof. apply filter_none, startEvents_no_engine. Qed.

Lemma startEvents_policyCalls ph' ph t i bs :
  filter (fun te => isPolicyCall ph' (snd te)) (startEvents ph t i bs) = [].
Proof.
  apply filter_none, not_true_is_false. intros H.
  apply existsb_exists in H. destruct H as ([t0 ev] & Hin & Hev).
  apply startEvents_inv in Hin.
  destruct Hin as [_ [(j & l & o & -> & _)|(j & e0 & -> & _)]];
    destruct ph'; discriminate.
Qed.

Lemma startEvents_not_post t i bs :
  existsb (fun te => isPostActivity (snd te)) (startEvents PreExec t i bs) = false.
Proof.
  apply not_true_is_false. intros H.
  apply existsb_exists in H. destruct H as ([t0 ev] & Hin & Hev).
  apply startEvents_inv in Hin.
  destruct Hin as [_ [(j & l & o & -> & _)|(j & e0 & -> & _)]]; discriminate.
Qed.

Lemma startEvents_nth ph t bs : forall i0 i l o,
  existsb throwsSync bs = false ->
  nth_error bs i = Some (Settles l o) ->
  In (t, EvRuleStarted ph (i0 + i) (mkPromise (t + l) o)) (startEvents ph t i0 bs).
Proof.
  induction bs as [|b bs IH]; intros i0 i l o Hno Hn; [destruct i; discriminate|].
  simpl in Hno. apply orb_false_elim in Hno. destruct Hno as [Hb Hbs].
  destruct b as [e|l' o']; [discriminate|]. simpl.
  destruct i as [|i]; simpl in Hn.
  - inversion Hn; subst. rewrite Nat.add_0_r. left. reflexivity.
  - right. rewrite <- Nat.add_succ_comm. apply IH; assumption.
Qed.

Lemma startEvents_until_throw ph t started e rest : forall i,
  existsb throwsSync started = false ->
  startResult t (started ++ Throws e :: rest) = inl e /\
  forall t0 ev,
    In (t0, ev) (startEvents ph t i (started ++ Throws e :: rest)) ->
    ev = EvRuleThrew ph (i + length started) e \/
    exists j p, ev = EvRuleStarted ph j p /\ j < i + length started.
Proof.
  induction started as [|b started IH]; intros i Hno; simpl.
  - split; [reflexivity|]. intros t0 ev [H|[]]. inversion H; subst.
    left. rewrite Nat.add_0_r. reflexivity.
  - simpl in Hno. apply orb_false_elim in Hno. destruct Hno as [Hb Hs].
    destruct b as [e0|l o]; [discriminate|].
    destruct (IH (S i) Hs) as [-> Hev]. split; [reflexivity|].
    intros t0 ev [H|H].
    + inversion H; subst. right. eexists _, _.
      split; [reflexivity|lia].
    + destruct (Hev _ _ H) as [->|(j & p & -> & Hj)].
      * left. f_equal. lia.
      * right. exists j, p. split; [reflexivity|lia].
Qed.

(** When every rule of a phase passes, the join takes as long as the
    slowest rule. *)
Lemma startResult_no_throw t bs :
  existsb throwsSync bs = false -> exists ps, startResult t bs = inr ps.
Proof.
  induction bs as [|[e|l o] bs IH]; simpl; intros H.
  - eexists; reflexivity.
  - discriminate.
  - destruct (IH H) as [ps ->]. eexists; reflexivity.
Qed.

Lemma startResult_throws t bs e :
  startResult t bs = inl e -> In (Throws e) bs.
Proof.
  induction bs as [|[e0|l o] bs IH]; simpl; intros H.
  - discriminate.
  - inversion H. left. reflexivity.
  - destruct (startResult t bs) as [e1|ps]; [|discriminate].
    inversion H; subst. right. apply IH. reflexivity.
Qed.



(** Below a null or an empty list the data holds nothing to evaluate. *)
Lemma nothing_below_null_or_empty d cp rest :
  lookupPath d cp = None \/ lookupPath d cp = Some VNull \/
  lookupPath d cp = Some (VList []) ->
  forall x, lookupPath d (cp ++ rest) = Some x -> concrete x = false.
Proof.
  intros H x. rewrite lookupPath_app.
  destruct H as [->|[->| ->]]; [discriminate| |];
    destruct rest as [|[k|i] rest]; simpl; intros Hx;
    try discriminate; try (inversion Hx; reflexivity).
  destruct i; discriminate.
Qed.

Lemma joined_passes_time t bs :
  existsb denies bs = false ->
  joined t bs = (inr tt, t + slowest bs) /\
  exists ps, startResult t bs = inr ps.
Proof.
  intros H. unfold joined.
  assert (Hs : exists ps, startResult t bs = inr ps /\
                          first_rejection ps = None /\
                          Nat.max t (latest ps) = t + slowest bs).
  { induction bs as [|b bs IH]; simpl in *.
    - exists []. repeat split. unfold latest, slowest. simpl. lia.
    - apply orb_false_elim in H. destruct H as [Hb Hbs].
      destruct (IH Hbs) as (ps & -> & Hf & Ht).
      destruct b as [e|l [[]|e]]; simpl in Hb; try discriminate.
      eexists. split; [reflexivity|]. simpl. rewrite Hf. split; [reflexivity|].
      unfold latest, slowest in *. simpl. lia. }
  destruct Hs as (ps & -> & -> & ->). split; [reflexivity|eauto].
Qed.

Section Properties.

Context {env : Environment}.

Lemma wrapper_stages args :
  executeWrapper args =
  (prePhase args ;;
   executionResult <- callEngine (withDocument args (fullDocumentOf args)) ;;
   returned <- postPhase args executionResult ;;
   match returned with
   | Some result => ret result
   | None => throw misconfigured
   end).
Proof. reflexivity. Qed.

Lemma prePhase_run args w :
  prePhase args w =
  let j := joined (now w) (preBehaviours args) in
  let w1 := mkWorld (snd j)
              (trace w ++ startEvents PreExec (now w) 0 (preBehaviours args)) in
  match fst j with
  | inr _ => (inr tt, w1)
  | inl e =>
      (processError e,
       mkWorld (snd j) (trace w1 ++ [(snd j, EvProcessError PreExec e)]))
  end.
Proof.
  unfold prePhase, try_catch, mapM, bind at 1.
  rewrite mapM_call. fold (preBehaviours args). unfold joined.
  destruct (startResult (now w) (preBehaviours args)) as [e|ps]; simpl.
  - reflexivity.
  - unfold bind, await, Promise_all.
    destruct (first_rejection ps) as [[t e]|]; simpl; reflexivity.
Qed.

Lemma callEngine_run args w :
  callEngine args w =
  let w1 := mkWorld (now w) (trace w ++ [(now w, EvEngineCalled (document args))]) in
  match executeFn args with
  | Throws e => (inl e, w1)
  | Settles l (Rejected e) => (inl e, mkWorld (now w + l) (trace w1))
  | Settles l (Fulfilled r) =>
      (inr r, mkWorld (now w + l) (trace w1 ++ [(now w + l, EvEngineReturned)]))
  end.
Proof.
  unfold callEngine, bind, emit, invoke, await; simpl.
  destruct (executeFn args) as [e|l [r|e]]; try reflexivity;
    rewrite Nat.max_r by apply Nat.le_add_r; reflexivity.
Qed.

Lemma postPhase_run args r w :
  postPhase args r w =
  match data r with
  | None => (inr (Some r), w)
  | Some d =>
      let bs := postBehaviours args d in
      let j := joined (now w) bs in
      let tr := (trace w ++ startEvents PostExec (now w) 0 bs)
                ++ match startResult (now w) bs with
                   | inl _ => []
                   | inr _ => [(now w, EvCleanup)]
                   end in
      match fst j with
      | inr _ =>
          (inr (Some (withData r (cleanupResult (filteredDocumentOf args) d))),
           mkWorld (snd j) tr)
      | inl e =>
          (match processError e with inl e' => inl e' | inr _ => inr None end,
           mkWorld (snd j) (tr ++ [(snd j, EvProcessError PostExec e)]))
      end
  end.
Proof.
  unfold postPhase, try_catch.
  destruct (data r) as [d|]; [|reflexivity].
  unfold executePostExecRules, mapM, bind at 1.
  rewrite mapM_call. fold (postBehaviours args d). unfold joined.
  destruct (startResult (now w) (postBehaviours args d)) as [e|ps]; simpl.
  - unfold bind, callProcessError, emit, lift; simpl. rewrite app_nil_r.
    destruct (processError e); reflexivity.
  - unfold bind, callCleanupResult, await, Promise_all, emit; simpl.
    destruct (first_rejection ps) as [[t e]|]; simpl.
    + unfold callProcessError, bind, emit, lift; simpl.
      destruct (processError e); reflexivity.
    + reflexivity.
Qed.

(** The whole run, stage by stage. *)
Lemma wrapper_run args :
  run (executeWrapper args) =
  let (r0, w0) := prePhase args start in
  match r0 with
  | inl e => (inl e, w0)
  | inr _ =>
      let (r1, w1) :=
        callEngine (withDocument args (fullDocumentOf args)) w0 in
      match r1 with
      | inl e => (inl e, w1)
      | inr executionResult =>
          let (r2, w2) := postPhase args executionResult w1 in
          match r2 with
          | inl e => (inl e, w2)
          | inr (Some result) => (inr result, w2)
          | inr None => (inl misconfigured, w2)
          end
      end
  end.
Proof.
  unfold run. rewrite wrapper_stages. unfold bind.
  destruct (prePhase args start) as [[e|[]] w0]; [reflexivity|].
  destruct (callEngine _ w0) as [[e|r] w1]; [reflexivity|].
  destruct (postPhase args r w1) as [[e|[res|]] w2]; reflexivity.
Qed.

(** X1: with a policy that throws, a denying pre-execution rule instance
    ends the operation with an error before the engine is called. *)
Lemma pre_denial_aborts args :
  policyThrows ->
  existsb denies (preBehaviours args) = true ->
  (exists e, fst (run (executeWrapper args)) = inl e) /\
  engineInvoked (snd (run (executeWrapper args))) = false.
Proof.
  intros Hp Hd. rewrite wrapper_run, prePhase_run.
  destruct (joined_denies 0 _ Hd) as (e & t' & Hj). simpl. rewrite Hj. simpl.
  destruct (Hp e) as [e' ->]. split; [eexists; reflexivity|].
  unfold engineInvoked. simpl. rewrite existsb_app. simpl.
  rewrite orb_false_r. apply not_true_is_false. intros H.
  apply existsb_exists in H. destruct H as ([t0 ev] & Hin & Hev).
  apply startEvents_inv in Hin.
  destruct Hin as [_ [(j & l & o & -> & _)|(j & e0 & -> & _)]]; discriminate.
Qed.

(** Case analysis of a run: the outcome of the pre-execution join and of
    the policy, the behaviour of the engine, and the outcome of the
    post-execution phase. *)
Ltac split_policy :=
  match goal with
  | |- context [processError ?err] =>
      let H := fresh "Hpolicy" in
      destruct (processError err) as [?e|[]] eqn:H
  end.

Ltac run_pre args :=
  rewrite !wrapper_run, !prePhase_run; cbv zeta;
  cbn [now trace start app];
  destruct (joined 0 (preBehaviours args)) as [[?e|[]] ?t] eqn:?Hpre;
  cbn [fst snd now trace start app];
  [split_policy; cbn [fst snd now trace]|].

Ltac run_engine args :=
  rewrite !callEngine_run; cbv zeta;
  cbn [fst snd now trace document withDocument];
  fold (engineBehaviour args);
  destruct (engineBehaviour args) as [?e|?l [?r|?e]] eqn:?Hengine;
  cbn [fst snd now trace].

Ltac run_post args :=
  rewrite !postPhase_run; cbv zeta; cbn [fst snd now trace];
  match goal with
  | |- context [data ?res] => destruct (data res) as [?d|] eqn:?Hdata
  end;
  cbn [fst snd now trace];
  try (match goal with
       | |- context [joined ?tm (postBehaviours args ?dt)] =>
           destruct (joined tm (postBehaviours args dt)) as [[?e|[]] ?t] eqn:?Hpost
       end;
       cbn [fst snd now trace];
       try (split_policy; cbn [fst snd now trace])).

Ltac run_cases args :=
  run_pre args; try (run_engine args; try run_post args).

(** Membership in a trace that a run has been reduced to. *)
Ltac split_trace H :=
  repeat (apply in_app_or in H; destruct H as [H|H]).

Ltac trace_leaf H :=
  try match type of H with
      | In _ (startEvents _ _ _ _) =>
          apply startEvents_inv in H;
          destruct H as [? [(?j & ?l & ?o & ?Hev & ?Hnth & ?Hle)
                           |(?j & ?e & ?Hev & ?Hthrow)]]
      | In _ [_] => destruct H as [H|[]]; inversion H
      | In _ ?tr =>
          match tr with
          | context [startResult ?tm ?bs] =>
              destruct (startResult tm bs) eqn:?Hsync;
              [contradiction|destruct H as [H|[]]; inversion H]
          end
      end;
  subst; try discriminate.

Ltac in_trace H := split_trace H; trace_leaf H.

(** X2: a denying post-execution evaluation ends the operation with an
    error, whatever the policy does. *)
Lemma post_denial_fails args l r d :
  engineBehaviour args = Settles l (Fulfilled r) ->
  data r = Some d ->
  existsb denies (postBehaviours args d) = true ->
  exists e, fst (run (executeWrapper args)) = inl e.
Proof.
  intros He Hd Hden.
  run_pre args; try (eexists; reflexivity).
  all: rewrite !callEngine_run; cbv zeta;
    cbn [fst snd now trace document withDocument];
    fold (engineBehaviour args); rewrite He; cbn [fst snd now trace].
  all: rewrite !postPhase_run; cbv zeta; rewrite Hd; cbn [fst snd now trace].
  all: match goal with
       | |- context [joined ?tm (postBehaviours _ _)] =>
           destruct (joined_denies tm _ Hden) as (e' & t' & ->)
       end; cbn [fst snd].
  all: destruct (processError e'); eexists; reflexivity.
Qed.

(** X3: a post-execution failure handed to a policy that returns ends in
    the generic error. *)
Lemma post_failure_needs_throwing_policy args t e :
  In (t, EvProcessError PostExec e) (trace (snd (run (executeWrapper args)))) ->
  processError e = inr tt ->
  fst (run (executeWrapper args)) = inl misconfigured.
Proof.
  run_cases args; intros Hin Hret; in_trace Hin; try reflexivity; congruence.
Qed.

Ltac in_parts := repeat rewrite in_app_iff; simpl; auto 12.

Ltac find_precedes :=
  first [ apply precedes_split; [solve [in_parts]|solve [in_parts]]
        | apply precedes_app_l; find_precedes ].

(** X4: with a policy that throws, the engine is called only after every
    pre-execution rule instance has been fulfilled. *)
Lemma engine_called_after_pre_phase args :
  policyThrows ->
  forall t doc,
    In (t, EvEngineCalled doc) (trace (snd (run (executeWrapper args)))) ->
    doc = fullDocumentOf args /\
    forall b, In b (preBehaviours args) ->
              exists l, b = Settles l (Fulfilled tt) /\ l <= t.
Proof.
  intros Hp t doc.
  assert (Hswallow : forall e, processError e = inr tt -> False).
  { intros e He. destruct (Hp e) as [e' He']. congruence. }
  run_cases args; intros Hin; in_trace Hin;
    try (exfalso; eapply Hswallow; eassumption).
  all: split; [reflexivity|].
  all: intros b Hb; apply joined_inr in Hpre;
    destruct Hpre as (ps0 & Hs & _ & Hall);
    destruct (startResult_settles _ _ _ Hs _ Hb) as (l' & o' & ->);
    assert (Hp0 : In (mkPromise (0 + l') o') ps0)
      by (apply (startResult_promises _ _ _ Hs); eauto);
    destruct (Hall _ Hp0) as [Ho Ht]; simpl in Ho, Ht; subst o';
    exists l'; split; [reflexivity|exact Ht].
Qed.

(** X5: the engine call has returned before any post-execution evaluation
    is started. *)
Lemma post_phase_after_engine args :
  forall t0 i p,
    In (t0, EvRuleStarted PostExec i p) (trace (snd (run (executeWrapper args)))) ->
    precedes (t0, EvEngineReturned) (t0, EvRuleStarted PostExec i p)
             (trace (snd (run (executeWrapper args)))).
Proof.
  intros t0 i p.
  run_cases args; intros Hin; split_trace Hin;
    pose proof Hin as Hin'; trace_leaf Hin'; find_precedes.
Qed.

(** A phase whose join went through has no failed evaluation. *)
Ltac phase_passed :=
  repeat match goal with
         | Hj : joined _ _ = (inr tt, _) |- _ =>
             apply joined_inr in Hj; destruct Hj as (?ps & ?Hs & _ & ?Hall)
         end;
  try congruence;
  match goal with
  | Hs : startResult ?tm ?bs = inr ?ps,
    Hnth : nth_error ?bs _ = Some (Settles ?l ?o),
    Hall : forall p, In p ?ps -> _ |- _ =>
      let Ho := fresh "Ho" in
      destruct (Hall (mkPromise (tm + l) o)) as [Ho _];
      [apply (startResult_promises _ _ _ Hs); eexists _, _;
       split; [eapply nth_error_In; exact Hnth|reflexivity]
      |simpl in *; congruence]
  end.

(** C5, as the code has it: when an evaluation of a phase fails (its
    promise is rejected, or the rule throws synchronously), a failure of
    that phase is handed to the error policy; it is handed over at the
    tick of the earliest rejection among the evaluations started in that
    phase (at once when a rule throws synchronously), and when the policy
    throws the operation ends at that very tick.  The siblings are not
    awaited: nothing later than the earliest rejection is waited for. *)
Theorem C5_failure_propagates_at_first_rejection args :
  (forall ph,
     (exists t0 i p e,
        In (t0, EvRuleStarted ph i p) (trace (snd (run (executeWrapper args)))) /\
        outcome p = Rejected e) \/
     (exists t0 i e,
        In (t0, EvRuleThrew ph i e) (trace (snd (run (executeWrapper args))))) ->
     exists t e,
       In (t, EvProcessError ph e) (trace (snd (run (executeWrapper args))))) /\
  (forall ph t e,
     In (t, EvProcessError ph e) (trace (snd (run (executeWrapper args)))) ->
     ((exists i, In (t, EvRuleThrew ph i e) (trace (snd (run (executeWrapper args))))) \/
      (exists t0 i p,
         In (t0, EvRuleStarted ph i p) (trace (snd (run (executeWrapper args)))) /\
         outcome p = Rejected e /\ settles_at p = t /\
         forall t1 j q e',
           In (t1, EvRuleStarted ph j q) (trace (snd (run (executeWrapper args)))) ->
           outcome q = Rejected e' -> t <= settles_at q)) /\
     (forall e', processError e = inl e' ->
                 fst (run (executeWrapper args)) = inl e' /\
                 now (snd (run (executeWrapper args))) = t)).
Proof.
  split.
  - intros ph.
    run_cases args;
      intros [(ts & i & p & er & Hin & Hrej)|(ts & i & er & Hin)];
      in_trace Hin.
    all: try match goal with
             | Hev : _ = _ :> event |- _ => inversion Hev; subst
             end.
    all: first [solve [eexists _, _; in_parts]|phase_passed].
  - intros ph t e.
    run_cases args; intros Hin; in_trace Hin.
    all: split;
      [|intros e' He'; first [exfalso; congruence|split; [congruence|reflexivity]]].
    all: match goal with
         | Hj : joined ?tm ?bs = (inl ?err, ?t1)
           |- context [exists i, In (?t1, EvRuleThrew ?ph i ?err) _] =>
             destruct (joined_failure_events ph _ _ _ _ Hj)
               as [[-> [i0 Hi0]]|(i0 & p0 & Hi0 & Ho & Ht & Hmin)];
             [left; exists i0; in_parts
             |right; exists tm, i0, p0; repeat split; [in_parts|exact Ho|exact Ht|];
              intros t1' j' q' e'' Hq Hr; split_trace Hq;
              try (eapply Hmin; [exact Hq|exact Hr]); trace_leaf Hq]
         end.
Qed.

(** C6, as the code has it: once the engine has returned data and the
    post-execution evaluations have been called without a synchronous
    throw, the pruner runs, in that very tick, whether or not one of the
    evaluations later denies; it runs after all of them have been started
    and before any of them is awaited; the pruned data is returned only
    when every post-execution evaluation has been fulfilled, and not
    before the last of them has settled. *)
Theorem C6_pruner_runs_before_post_checks_settle args :
  (forall t l r d,
     In (t, EvEngineReturned) (trace (snd (run (executeWrapper args)))) ->
     engineBehaviour args = Settles l (Fulfilled r) ->
     data r = Some d ->
     existsb throwsSync (postBehaviours args d) = false ->
     In (t, EvCleanup) (trace (snd (run (executeWrapper args))))) /\
  (forall t,
     In (t, EvCleanup) (trace (snd (run (executeWrapper args)))) ->
     forall t0 i p,
       In (t0, EvRuleStarted PostExec i p) (trace (snd (run (executeWrapper args)))) ->
       t0 = t /\ t <= settles_at p /\
       precedes (t0, EvRuleStarted PostExec i p) (t, EvCleanup)
                (trace (snd (run (executeWrapper args))))) /\
  (forall res,
     fst (run (executeWrapper args)) = inr res ->
     (forall t0 i p,
        In (t0, EvRuleStarted PostExec i p) (trace (snd (run (executeWrapper args)))) ->
        outcome p = Fulfilled tt /\
        settles_at p <= now (snd (run (executeWrapper args)))) /\
     (forall d,
        data res = Some d ->
        exists l r d0,
          engineBehaviour args = Settles l (Fulfilled r) /\
          data r = Some d0 /\
          d = cleanupResult (filteredDocumentOf args) d0 /\
          exists t, In (t, EvCleanup) (trace (snd (run (executeWrapper args)))))).
Proof.
  split; [|split].
  - intros t l r d.
    run_cases args; intros Hret He Hd Hsync; in_trace Hret;
      try congruence.
    all: inversion He; subst;
      match goal with
      | H1 : data ?x = Some _, H2 : data ?x = Some _ |- _ =>
          rewrite H1 in H2; inversion H2; subst
      end.
    all: match goal with
         | |- context [startResult ?tm ?bs] =>
             destruct (startResult_no_throw tm _ Hsync) as [ps ->]
         end; in_parts.
  - intros t.
    run_cases args; intros Hc ts i p Hin; in_trace Hc;
      split_trace Hin; pose proof Hin as Hin'; trace_leaf Hin';
      (split; [reflexivity|]);
      (split; [inversion Hev; simpl; lia|find_precedes]).
  - intros res Hreturned. split; revert Hreturned.
    + run_cases args; intros Hres ts i p Hin; try discriminate;
        in_trace Hin.
      all: apply joined_inr in Hpost; destruct Hpost as (ps0 & Hs & _ & Hall).
      all: inversion Hev; subst; apply Hall;
        apply (startResult_promises _ _ _ Hs);
        eexists _, _; split; [eapply nth_error_In; eassumption|reflexivity].
    + run_cases args; intros Hres dd Hdd; try discriminate;
        inversion Hres; subst.
      all: try (rewrite Hdata in Hdd; discriminate).
      all: simpl in Hdd; inversion Hdd; subst.
      all: eexists _, _, _; split; [reflexivity|]; split; [eassumption|];
        split; [reflexivity|].
      all: apply joined_inr in Hpost; destruct Hpost as (ps0 & -> & _ & _).
      all: eexists; in_parts.
Qed.

(** C10: when the engine's execute function throws or rejects, the
    wrapper ends with that very exception and the engine call is the last
    thing it did: the exception is not handed to [processError]. *)
Theorem C10_engine_exception_propagates args e :
  engineBehaviour args = Throws e \/
  (exists l, engineBehaviour args = Settles l (Rejected e)) ->
  engineInvoked (snd (run (executeWrapper args))) = true ->
  fst (run (executeWrapper args)) = inl e /\
  exists tr t,
    trace (snd (run (executeWrapper args))) =
    tr ++ [(t, EvEngineCalled (fullDocumentOf args))].
Proof.
  intros He.
  run_pre args.
  - unfold engineInvoked; simpl. rewrite existsb_app, startEvents_no_engine.
    simpl. discriminate.
  - intros _. run_engine args; destruct He as [He|[l' He]]; try discriminate;
      inversion He; subst; (split; [reflexivity|eexists _, _; reflexivity]).
  - intros _. run_engine args; destruct He as [He|[l' He]]; try discriminate;
      inversion He; subst; (split; [reflexivity|eexists _, _; reflexivity]).
Qed.


(** C8: an evaluation is only ever scheduled for a value that is present
    in the data and is not null; nothing is evaluated at or below a
    place where the data holds nothing, null or an empty list; calling
    the scheduled evaluations raises nothing but what a rule itself
    throws; a path resolves to nothing exactly when it has no non-null
    concrete occurrence in the data; and when every post-execution rule
    instance either has no occurrence in the data or passes on each of
    its occurrences, the operation returns the pruned data, whatever the
    instances without an occurrence would decide. *)
Theorem C8_nothing_to_check_succeeds args l r d :
  (forall ev,
     In ev (scheduleEvaluations (compiledRulesOf args) d) ->
     ev_objectValue ev <> VNull /\
     lookupPath d (ev_at ev) = Some (ev_objectValue ev)) /\
  (forall ev cp rest,
     In ev (scheduleEvaluations (compiledRulesOf args) d) ->
     ev_at ev = cp ++ rest ->
     lookupPath d cp <> None /\ lookupPath d cp <> Some VNull /\
     lookupPath d cp <> Some (VList [])) /\
  (forall w e,
     fst (executePostExecRules (contextValue args) (compiledRulesOf args) d w)
     = inl e ->
     In (Throws e) (postBehaviours args d)) /\
  (forall path,
     resolvePath path [] d = [] <-> forall cp x, ~ occurrence path d cp x) /\
  (existsb denies (preBehaviours args) = false ->
   engineBehaviour args = Settles l (Fulfilled r) ->
   data r = Some d ->
   (forall rule,
      In rule (postExecutionRules (compiledRulesOf args)) ->
      resolvePath (post_path rule) [] d = [] \/
      forall ev,
        In ev (evaluationsOf rule d) ->
        denies (post_execute rule (contextValue args)
                  (fieldArgs (post_config rule)) (ev_objectValue ev) d) = false) ->
   fst (run (executeWrapper args)) =
   inr (withData r (cleanupResult (filteredDocumentOf args) d))).
Proof.
  assert (Hsched : forall ev,
            In ev (scheduleEvaluations (compiledRulesOf args) d) ->
            lookupPath d (ev_at ev) = Some (ev_objectValue ev) /\
            concrete (ev_objectValue ev) = true).
  { intros ev Hin. unfold scheduleEvaluations in Hin.
    apply in_flat_map in Hin. destruct Hin as (rule & _ & Hin).
    apply evaluationsOf_spec in Hin. destruct Hin as [_ (_ & Hl & Hc)].
    split; assumption. }
  split; [|split; [|split; [|split]]].
  - intros ev Hin. destruct (Hsched ev Hin) as [Hl Hc]. split; [|exact Hl].
    intros Hnull. rewrite Hnull in Hc. discriminate.
  - intros ev cp rest Hin Hat. destruct (Hsched ev Hin) as [Hl Hc].
    rewrite Hat in Hl.
    repeat split; intros Hcp;
      rewrite (nothing_below_null_or_empty d cp rest) with (x := ev_objectValue ev)
        in Hc; auto; discriminate.
  - intros w e. unfold executePostExecRules, mapM.
    rewrite mapM_call. fold (postBehaviours args d). cbn [fst].
    apply startResult_throws.
  - intros path. split.
    + intros Hnil cp x Hocc.
      assert (Hin : In (cp, x) (resolvePath path [] d))
        by (apply resolvePath_spec; exists cp; split; [reflexivity|exact Hocc]).
      rewrite Hnil in Hin. contradiction.
    + intros Hnone. destruct (resolvePath path [] d) as [|[cp x] rest] eqn:E;
        [reflexivity|].
      exfalso. apply (Hnone cp x).
      assert (Hin : In (cp, x) (resolvePath path [] d))
        by (rewrite E; left; reflexivity).
      apply resolvePath_spec in Hin. destruct Hin as (rel & Hrel & Hocc).
      simpl in Hrel. subst. exact Hocc.
  - intros Hpre Hengine Hdata Hrules.
    assert (Hpost : existsb denies (postBehaviours args d) = false).
    { apply not_true_is_false. intros Hex.
      apply existsb_exists in Hex. destruct Hex as (bh & Hin & Hden).
      unfold postBehaviours in Hin. apply in_map_iff in Hin.
      destruct Hin as (ev & <- & Hin).
      unfold scheduleEvaluations in Hin. apply in_flat_map in Hin.
      destruct Hin as (rule & Hrule & Hin).
      pose proof (proj1 (evaluationsOf_spec rule d ev) Hin) as [Heq _].
      destruct (Hrules rule Hrule) as [Hnil|Hpass].
      - unfold evaluationsOf in Hin. rewrite Hnil in Hin. contradiction.
      - rewrite Heq in Hden. rewrite (Hpass ev Hin) in Hden. discriminate. }
    rewrite wrapper_run, prePhase_run. cbv zeta. cbn [now trace start app].
    destruct (joined_passes 0 _ Hpre) as [t' ->]. cbn [fst snd].
    rewrite callEngine_run. cbv zeta. cbn [now trace].
    fold (engineBehaviour args). rewrite Hengine.
    rewrite postPhase_run. rewrite Hdata. cbv zeta. cbn [now trace].
    destruct (joined_passes (t' + l) _ Hpost) as [t'' ->]. reflexivity.
Qed.

(** C9: the document augmented by the Selection Augmentor selects
    everything the client's document selects; and when the operation
    succeeds on data that answers such an augmented document, the data
    returned answers the client's own document: every object in it
    carries exactly the fields the client selected there, each once, in
    the order in which the client first named them, so no injected field
    is left; and it is the data of the engine with fields of objects
    dropped and nothing else changed: nulls, scalars and the length and
    order of lists, empty ones included, are as the engine gave them. *)
Theorem C9_returned_data_has_the_shape_of_the_query args l r d res :
  (fullDocumentOf args =
   addSelectionSets (filteredDocumentOf args) (compiledRulesOf args) ->
   covers (fullDocumentOf args) (filteredDocumentOf args) = true) /\
  (covers (fullDocumentOf args) (filteredDocumentOf args) = true ->
   engineBehaviour args = Settles l (Fulfilled r) ->
   data r = Some d ->
   answers (fullDocumentOf args) d = true ->
   fst (run (executeWrapper args)) = inr res ->
   exists out,
     data res = Some out /\
     answers (filteredDocumentOf args) out = true /\
     prunedFrom out d).
Proof.
  split; [intros ->; apply addSelectionSets_covers|].
  intros Hcov He Hd Hans.
  run_cases args; intros Hres; try discriminate; try congruence.
  all: inversion He; subst; rewrite Hd in Hdata; inversion Hdata; subst;
    inversion Hres; subst; simpl;
    eexists; split; [reflexivity|];
    split; [eapply cleanupResult_answers; eauto|apply cleanupResult_pruned].
Qed.

(** When no rule instance is compiled and the data of the engine answers
    the client's document, the wrapper returns the result of the engine
    as it is. *)
Lemma no_rule_compiled_is_a_noop args l r d :
  preExecutionRules (compiledRulesOf args) = [] ->
  postExecutionRules (compiledRulesOf args) = [] ->
  filteredDocumentOf args <> [] ->
  engineBehaviour args = Settles l (Fulfilled r) ->
  data r = Some d ->
  answers (filteredDocumentOf args) d = true ->
  fst (run (executeWrapper args)) = inr r.
Proof.
  intros Hpre Hpost Hdoc He Hd Hans.
  assert (Hpb : preBehaviours args = [])
    by (unfold preBehaviours; rewrite Hpre; reflexivity).
  assert (Hqb : postBehaviours args d = [])
    by (unfold postBehaviours, scheduleEvaluations; rewrite Hpost; reflexivity).
  rewrite wrapper_run, prePhase_run, Hpb. cbv zeta.
  cbn [joined startResult first_rejection startEvents now trace start app fst snd].
  rewrite callEngine_run. cbv zeta. cbn [now trace].
  fold (engineBehaviour args). rewrite He.
  rewrite postPhase_run, Hd. cbv zeta. rewrite Hqb.
  cbn [joined startResult first_rejection fst snd].
  rewrite (cleanupResult_noop d _ Hdoc Hans).
  destruct r as [dt errs]. simpl in Hd. subst dt. reflexivity.
Qed.

(** X6: the engine is called at most once in an execution, and only with
    the augmented document. *)
Theorem engine_called_at_most_once args :
  length (engineCalls (snd (run (executeWrapper args)))) <= 1 /\
  forall t doc,
    In (t, EvEngineCalled doc) (trace (snd (run (executeWrapper args)))) ->
    doc = fullDocumentOf args.
Proof.
  split.
  - unfold engineCalls.
    run_cases args; cbn [snd trace];
      rewrite ?filter_app, ?startEvents_engineCalls;
      repeat match goal with
             | |- context [startResult ?a ?b] => destruct (startResult a b)
             end;
      simpl; lia.
  - intros t doc. run_cases args; intros Hin; in_trace Hin; reflexivity.
Qed.

(** X7: [processError] is called at most once from each [catch]. *)
Theorem policy_called_at_most_once_per_phase args ph :
  length (policyCalls ph (snd (run (executeWrapper args)))) <= 1.
Proof.
  unfold policyCalls.
  run_cases args; cbn [snd trace];
    rewrite ?filter_app, ?startEvents_policyCalls;
    repeat match goal with
           | |- context [startResult ?a ?b] => destruct (startResult a b)
           end;
    destruct ph; simpl; lia.
Qed.

(** X8: when the engine answers without data, the wrapper returns the
    result of the engine as it is, and nothing of the second [try] runs:
    no post-execution rule, no cleaner, no [processError]; the return of
    the engine is the last event. *)
Theorem no_data_returns_engine_result args l r :
  engineBehaviour args = Settles l (Fulfilled r) ->
  data r = None ->
  engineInvoked (snd (run (executeWrapper args))) = true ->
  fst (run (executeWrapper args)) = inr r /\
  existsb (fun te => isPostActivity (snd te))
          (trace (snd (run (executeWrapper args)))) = false /\
  exists tr t,
    trace (snd (run (executeWrapper args))) = tr ++ [(t, EvEngineReturned)].
Proof.
  intros He Hd.
  run_pre args.
  - unfold engineInvoked; simpl. rewrite existsb_app, startEvents_no_engine.
    simpl. discriminate.
  - intros _. rewrite !callEngine_run. cbv zeta.
    cbn [fst snd now trace document withDocument].
    fold (engineBehaviour args). rewrite He. cbn [fst snd now trace].
    rewrite !postPhase_run, Hd. cbn [fst snd now trace].
    split; [reflexivity|]. split; [|eexists _, _; reflexivity].
    rewrite !existsb_app, startEvents_not_post. reflexivity.
  - intros _. rewrite !callEngine_run. cbv zeta.
    cbn [fst snd now trace document withDocument].
    fold (engineBehaviour args). rewrite He. cbn [fst snd now trace].
    rewrite !postPhase_run, Hd. cbn [fst snd now trace].
    split; [reflexivity|]. split; [|eexists _, _; reflexivity].
    rewrite !existsb_app, startEvents_not_post. reflexivity.
Qed.

(** X9: whatever the wrapper returns is the result of the engine with
    only the data replaced, by the cleaned data when there is data: the
    errors reported by the engine are passed on. *)
Theorem returned_result_is_engine_result_pruned args res :
  fst (run (executeWrapper args)) = inr res ->
  exists l r,
    engineBehaviour args = Settles l (Fulfilled r) /\
    errors res = errors r /\
    data res = option_map (cleanupResult (filteredDocumentOf args)) (data r).
Proof.
  run_cases args; intros Hres; try discriminate;
    inversion Hres; subst; eexists _, _;
    (split; [reflexivity|]);
    match goal with
    | H : data _ = _ |- _ => rewrite H
    end;
    split; reflexivity.
Qed.

(** X10: when every pre-execution rule passes, the engine answers with
    data and every post-execution evaluation passes, the wrapper returns
    the result of the engine with the data cleaned, [processError] is never
    called, and the operation takes the time of the slowest pre-execution
    rule, then of the engine, then of the slowest post-execution
    evaluation: the rules of a phase run side by side. *)
Theorem all_rules_pass_returns_pruned_data args l r d :
  existsb denies (preBehaviours args) = false ->
  engineBehaviour args = Settles l (Fulfilled r) ->
  data r = Some d ->
  existsb denies (postBehaviours args d) = false ->
  fst (run (executeWrapper args)) =
    inr (withData r (cleanupResult (filteredDocumentOf args) d)) /\
  now (snd (run (executeWrapper args))) =
    slowest (preBehaviours args) + l + slowest (postBehaviours args d) /\
  policyCalls PreExec (snd (run (executeWrapper args))) = [] /\
  policyCalls PostExec (snd (run (executeWrapper args))) = [].
Proof.
  intros Hpre He Hd Hpost.
  rewrite !wrapper_run, !prePhase_run. cbv zeta. cbn [now trace start app].
  destruct (joined_passes_time 0 _ Hpre) as [-> _]. cbn [fst snd].
  rewrite !callEngine_run. cbv zeta.
  cbn [fst snd now trace document withDocument].
  fold (engineBehaviour args). rewrite He. cbn [fst snd now trace].
  rewrite !postPhase_run, Hd. cbv zeta. cbn [fst snd now trace].
  destruct (joined_passes_time (0 + slowest (preBehaviours args) + l) _ Hpost)
    as [-> [ps ->]].
  cbn [fst snd now trace]. unfold policyCalls. cbn [trace].
  rewrite !filter_app, !startEvents_policyCalls. simpl. auto.
Qed.

(** X11: unless a rule throws synchronously, every pre-execution rule
    instance of the plan is called at the start of the execution,
    whatever the other instances answer: a denial does not keep the
    others from being evaluated. *)
Theorem every_pre_rule_is_started args i l o :
  existsb throwsSync (preBehaviours args) = false ->
  nth_error (preBehaviours args) i = Some (Settles l o) ->
  In (0, EvRuleStarted PreExec i (mkPromise l o))
     (trace (snd (run (executeWrapper args)))).
Proof.
  intros Hno Hn.
  pose proof (startEvents_nth PreExec 0 _ 0 i l o Hno Hn) as Hin.
  simpl in Hin.
  run_cases args; in_parts.
Qed.

(** X12: when a pre-execution rule instance throws synchronously, the
    instances after it are never called, and the thrown value is handed to
    [processError] at once. *)
Theorem sync_throw_stops_the_calls args started e rest :
  preBehaviours args = started ++ Throws e :: rest ->
  existsb throwsSync started = false ->
  In (0, EvProcessError PreExec e) (trace (snd (run (executeWrapper args)))) /\
  forall t j p,
    In (t, EvRuleStarted PreExec j p) (trace (snd (run (executeWrapper args)))) ->
    j < length started.
Proof.
  intros Hbs Hno.
  destruct (startEvents_until_throw PreExec 0 started e rest 0 Hno) as [Hs Hev].
  rewrite <- Hbs in Hs, Hev.
  assert (Hj : joined 0 (preBehaviours args) = (inl e, 0))
    by (unfold joined; rewrite Hs; reflexivity).
  split.
  - run_cases args; inversion Hj; subst; in_parts.
  - intros t j p.
    run_cases args; intros Hin; split_trace Hin;
      try (destruct (Hev _ _ Hin) as [Heq|(j' & p' & Heq & Hlt)];
           [discriminate|inversion Heq; subst; exact Hlt]);
      trace_leaf Hin.
Qed.

End Properties.

(** * The claims on concrete executions *)

Import ListTest.

(** C1: a pre-execution rule instance denies, the configured
    [processError] returns instead of throwing, and the operation returns
    the data of the engine. *)
Theorem C1_denied_operation_returns_data :
  existsb denies
    (preBehaviours (env := testEnv PreTest.bindings swallow)
       (operation PreTest.query)) = true /\
  fst (PreTest.server swallow) = inr (mkResult (Some PreTest.answer) []).
Proof. split; vm_compute; reflexivity. Qed.

(** C2: a pre-execution rule instance denies, the configured
    [processError] returns instead of throwing, and the engine is called. *)
Theorem C2_engine_called_after_pre_denial :
  existsb denies
    (preBehaviours (env := testEnv PreTest.bindings swallow)
       (operation PreTest.query)) = true /\
  engineInvoked (snd (PreTest.server swallow)) = true /\
  In (1, EvEngineCalled PreTest.query) (trace (snd (PreTest.server swallow))).
Proof.
  split; [vm_compute; reflexivity|].
  split; [vm_compute; reflexivity|vm_compute; auto 10].
Qed.

(** C3: the pre-execution failure is handed to [processError], which
    returns; the wrapper goes on and returns data, it does not raise the
    generic error. *)
Theorem C3_pre_failure_with_returning_policy_returns_data :
  In (1, EvProcessError PreExec "UnauthorizedError")
     (trace (snd (PreTest.server swallow))) /\
  swallow "UnauthorizedError" = inr tt /\
  fst (PreTest.server swallow) = inr (mkResult (Some PreTest.answer) []) /\
  fst (PreTest.server swallow) <> inl misconfigured.
Proof.
  split; [vm_compute; auto 10|].
  split; [reflexivity|].
  split; [vm_compute; reflexivity|vm_compute; discriminate].
Qed.

(** C4: the engine is called at tick 1 although one pre-execution rule
    instance was rejected at tick 1 and the other settles only at tick 3. *)
Theorem C4_engine_called_before_pre_phase_completed :
  let tr := trace (snd (PreTest.server swallow)) in
  In (0, EvRuleStarted PreExec 0 (mkPromise 3 (Fulfilled tt))) tr /\
  In (0, EvRuleStarted PreExec 1 (mkPromise 1 (Rejected "UnauthorizedError"))) tr /\
  In (1, EvEngineCalled PreTest.query) tr.
Proof. vm_compute. auto 10. Qed.

(** C5 fails with a policy that rethrows: the denial at tick 1 ends the
    operation at tick 1, the sibling that settles at tick 3 is pending. *)
Lemma C5_sibling_left_pending :
  ~ awaitsSiblings (PreTest.server rethrow) /\
  ~ nothingPending (PreTest.server rethrow).
Proof.
  split.
  - intros H.
    assert (Hle : 3 <= 1); [|lia].
    apply (H PreExec 1 "UnauthorizedError"
             ltac:(vm_compute; auto 10)
             0 0 (mkPromise 3 (Fulfilled tt))).
    vm_compute. auto 10.
  - intros H.
    assert (Hle : 3 <= 1); [|lia].
    apply (H 0 PreExec 0 (mkPromise 3 (Fulfilled tt))).
    vm_compute. auto 10.
Qed.

(** The denial of a pre-execution rule in [PreTest] and the denial of
    the rule on [Comment] in the first test of list.test.ts are handed to
    the policy; in [PreTest] the operation ends with the denial at
    tick 1. *)
Lemma C5_failure_propagates_witness :
  (exists t e,
     In (t, EvProcessError PreExec e) (trace (snd (PreTest.server rethrow)))) /\
  (exists t e,
     In (t, EvProcessError PostExec e) (trace (snd (server rethrow userQuery)))) /\
  fst (PreTest.server rethrow) = inl "UnauthorizedError" /\
  now (snd (PreTest.server rethrow)) = 1.
Proof.
  split; [|split].
  - apply (proj1 (C5_failure_propagates_at_first_rejection
                    (env := testEnv PreTest.bindings rethrow)
                    (operation PreTest.query)) PreExec).
    left. exists 0, 1, (mkPromise 1 (Rejected "UnauthorizedError")),
      "UnauthorizedError".
    split; [vm_compute; auto 10|reflexivity].
  - apply (proj1 (C5_failure_propagates_at_first_rejection
                    (env := testEnv bindings rethrow)
                    (operation userQuery)) PostExec).
    left. exists 1, 0, (mkPromise 2 (Rejected "UnauthorizedError")),
      "UnauthorizedError".
    split; [vm_compute; auto 10|reflexivity].
  - refine (proj2 (proj2 (C5_failure_propagates_at_first_rejection
                            (env := testEnv PreTest.bindings rethrow)
                            (operation PreTest.query))
                         PreExec 1 "UnauthorizedError" _)
                  "UnauthorizedError" eq_refl).
    vm_compute. auto 10.
Defined.

(** C6 fails on the first test of list.test.ts: the pruner runs at tick
    1, the evaluation of the rule on [Comment] is rejected at tick 2. *)
Lemma C6_pruner_runs_although_rule_denies :
  ~ prunesAfterPostChecks (server rethrow userQuery).
Proof.
  intros H.
  destruct (H 1 ltac:(vm_compute; auto 10)
              1 0 (mkPromise 2 (Rejected "UnauthorizedError"))
              ltac:(vm_compute; auto 10)) as [Ho _].
  discriminate.
Qed.

(** In the first test of list.test.ts the operation fails with the
    denial of the rule on [Comment], and the pruner has run, at tick 1;
    in "should handle passing list of lists" the evaluation that settles
    at tick 2 is fulfilled and the data is not returned before. *)
Lemma C6_pruner_witness :
  fst (server rethrow userQuery) = inl "UnauthorizedError" /\
  In (1, EvCleanup) (trace (snd (server rethrow userQuery))) /\
  outcome (mkPromise 2 (Fulfilled tt)) = Fulfilled tt /\
  2 <= now (snd (server rethrow userPostsAndLikesListOfListsQuery)).
Proof.
  split; [vm_compute; reflexivity|]. split.
  - refine (proj1 (C6_pruner_runs_before_post_checks_settle
                     (env := testEnv bindings rethrow) (operation userQuery))
                  1 1 (mkResult (Some TwiceTest.answer) []) TwiceTest.answer
                  _ _ _ _).
    + vm_compute. auto 10.
    + vm_compute. reflexivity.
    + reflexivity.
    + vm_compute. reflexivity.
  - refine (proj1 (proj2 (proj2 (C6_pruner_runs_before_post_checks_settle
                                   (env := testEnv bindings rethrow)
                                   (operation userPostsAndLikesListOfListsQuery)))
                         (mkResult (Some PreTest.answer) []) _)
                  1 0 (mkPromise 2 (Fulfilled tt)) _).
    + vm_compute. reflexivity.
    + vm_compute. auto 10.
Defined.

Lemma C10_engine_exception_witness :
  fst (run (wrapExecuteFn brokenEngineEnv (operation userQuery)))
  = inl "engine failure".
Proof.
  refine (proj1 (C10_engine_exception_propagates
                   (env := brokenEngineEnv) (operation userQuery)
                   "engine failure" _ _)).
  - left. reflexivity.
  - reflexivity.
Defined.



(** The scenario of [MixedTest]: the rule on [Comment] always denies, no
    [Comment] is in the data, the rule on [Like] passes on the four likes:
    the operation succeeds. *)
Lemma C8_empty_list_witness :
  fst MixedTest.server = inr (mkResult (Some MixedTest.answer) []).
Proof.
  refine (proj2 (proj2 (proj2 (proj2
            (C8_nothing_to_check_succeeds
               (env := MixedTest.mixedEnv) (operation MixedTest.query) 1
               (mkResult (Some MixedTest.answer) []) MixedTest.answer))))
            _ _ _ _).
  - vm_compute. reflexivity.
  - reflexivity.
  - reflexivity.
  - intros rule Hin. vm_compute in Hin.
    destruct Hin as [<-|[<-|[]]].
    + right. intros ev _. reflexivity.
    + left. vm_compute. reflexivity.
Defined.

(** The query of [FragmentTest] selects [posts] twice; the rule on [Post]
    has the title and the owner fetched; the client gets the id and the
    title it selected, once, and not the owner. *)
Lemma C9_injected_fields_witness :
  exists out,
    data (mkResult (Some FragmentTest.returned) []) = Some out /\
    answers FragmentTest.query out = true /\
    prunedFrom out FragmentTest.fetched.
Proof.
  pose proof (C9_returned_data_has_the_shape_of_the_query
                (env := FragmentTest.fragmentEnv)
                (operation FragmentTest.query) 1
                (mkResult (Some FragmentTest.fetched) []) FragmentTest.fetched
                (mkResult (Some FragmentTest.returned) []))
    as [Hcovers Hshape].
  refine (Hshape (Hcovers _) _ _ _ _).
  - reflexivity.
  - reflexivity.
  - reflexivity.
  - vm_compute. reflexivity.
  - vm_compute. reflexivity.
Defined.

(** * list.test.ts, replayed on the model *)

Example should_execute_affected_rule_when_response_contains_empty_lists :
  fst (server rethrow userQuery) = inl "UnauthorizedError" /\
  calledTimes "FailingPostExecRule" userQuery = 1.
Proof. split; vm_compute; reflexivity. Qed.

Example should_handle_nullable_lists :
  fst (server rethrow userWithNullPostsQuery) = inl "UnauthorizedError" /\
  calledTimes "FailingPostExecRule" userWithNullPostsQuery = 1.
Proof. split; vm_compute; reflexivity. Qed.

Example should_handle_empty_lists_in_result_with_nested_selection_set :
  calledTimes "FailingPostExecRule" userLikesQuery = 0 /\
  fst (server rethrow userLikesQuery) =
  inr (mkResult
         (Some (VObject [("userWithLikes", VObject [("likes", VList [])])]))
         []).
Proof. split; vm_compute; reflexivity. Qed.

Example should_handle_failing_list_of_lists :
  fst (server rethrow userCommentsAndLikesListOfListsQuery)
  = inl "UnauthorizedError" /\
  calledTimes "FailingPostExecRule" userCommentsAndLikesListOfListsQuery = 1 /\
  calledTimes "PassingPostExecRule" userCommentsAndLikesListOfListsQuery = 4.
Proof. repeat split; vm_compute; reflexivity. Qed.

Example should_handle_passing_list_of_lists :
  calledTimes "PassingPostExecRule" userPostsAndLikesListOfListsQuery = 4 /\
  fst (server rethrow userPostsAndLikesListOfListsQuery) =
  inr (mkResult (Some PreTest.answer) []).
Proof. split; vm_compute; reflexivity. Qed.

Example should_handle_passing_list_of_lists_of_strings :
  fst (server rethrow userPostsAndStringsListOfListsQuery) =
  inr (mkResult (Some PruneTest.returned) []).
Proof. vm_compute; reflexivity. Qed.

(** With the rule that needs extra fields, the engine is asked for them
    and the client does not see them. *)
Example injected_fields_are_fetched_and_pruned :
  In (0, EvEngineCalled
           [Field "userWithPostsAndStringsListOfLists"
              [Field "stringsListOfLists" [];
               Field "posts"
                 [Field "id" []; Field "title" [];
                  Field "owner" [Field "id" []]]]])
     (trace (snd PruneTest.server)) /\
  fst PruneTest.server = inr (mkResult (Some PruneTest.returned) []).
Proof. split; vm_compute; auto. Qed.

(** A field selected twice is returned once, with everything the client
    selected under it. *)
Example field_selected_twice_keeps_what_was_selected :
  In (0, EvEngineCalled
           [Field "userWithPostsAndStringsListOfLists"
              [Field "posts"
                 [Field "id" []; Field "title" [];
                  Field "owner" [Field "id" []]];
               Field "stringsListOfLists" [];
               Field "posts"
                 [Field "title" []; Field "owner" [Field "id" []]]]])
     (trace (snd FragmentTest.server)) /\
  fst FragmentTest.server = inr (mkResult (Some FragmentTest.returned) []).
Proof. split; vm_compute; auto. Qed.

(** * Further properties on concrete executions *)

Lemma pre_denial_aborts_witness :
  engineInvoked (snd (PreTest.server rethrow)) = false.
Proof.
  refine (proj2 (pre_denial_aborts (env := testEnv PreTest.bindings rethrow)
                   (operation PreTest.query) _ _)).
  - intros e. exists e. reflexivity.
  - vm_compute. reflexivity.
Defined.

Lemma post_denial_fails_witness :
  exists e, fst (server rethrow userQuery) = inl e.
Proof.
  refine (post_denial_fails (env := testEnv bindings rethrow)
            (operation userQuery) 1
            (mkResult
               (Some (VObject
                        [("user",
                          VObject [("posts", VList []);
                                   ("comments", VList [obj_id "comment_id"])])]))
               [])
            (VObject
               [("user",
                 VObject [("posts", VList []);
                          ("comments", VList [obj_id "comment_id"])])])
            _ _ _).
  - vm_compute. reflexivity.
  - reflexivity.
  - vm_compute. reflexivity.
Defined.

Lemma post_failure_needs_throwing_policy_witness :
  fst (server swallow userQuery) = inl misconfigured.
Proof.
  refine (post_failure_needs_throwing_policy
            (env := testEnv bindings swallow) (operation userQuery)
            2 "UnauthorizedError" _ _).
  - vm_compute. auto 10.
  - reflexivity.
Defined.

Lemma engine_called_after_pre_phase_witness :
  exists l, Settles 3 (Fulfilled tt) = Settles l (Fulfilled tt) /\ l <= 3.
Proof.
  refine (proj2 (engine_called_after_pre_phase (env := PassTest.passEnv)
                   PassTest.args _ 3 PreTest.query _)
                (Settles 3 (Fulfilled tt)) _).
  - intros e. exists e. reflexivity.
  - vm_compute. auto 10.
  - vm_compute. auto.
Defined.

Lemma post_phase_after_engine_witness :
  precedes (1, EvEngineReturned)
    (1, EvRuleStarted PostExec 0 (mkPromise 2 (Fulfilled tt)))
    (trace (snd (server rethrow userPostsAndLikesListOfListsQuery))).
Proof.
  refine (post_phase_after_engine (env := testEnv bindings rethrow)
            (operation userPostsAndLikesListOfListsQuery)
            1 0 (mkPromise 2 (Fulfilled tt)) _).
  vm_compute. auto 10.
Defined.

Lemma engine_called_at_most_once_witness :
  PreTest.query = fullDocumentOf (env := PassTest.passEnv) PassTest.args.
Proof.
  refine (proj2 (engine_called_at_most_once (env := PassTest.passEnv)
                   PassTest.args) 3 PreTest.query _).
  vm_compute. auto 10.
Defined.

Lemma no_data_returns_engine_result_witness :
  fst (run (wrapExecuteFn PassTest.noDataEnv PassTest.args))
  = inr PassTest.failedResult.
Proof.
  refine (proj1 (no_data_returns_engine_result (env := PassTest.noDataEnv)
                   PassTest.args 1 PassTest.failedResult _ _ _)).
  - reflexivity.
  - reflexivity.
  - vm_compute. reflexivity.
Defined.

Lemma returned_result_is_engine_result_pruned_witness :
  exists l r,
    engineBehaviour (env := PruneTest.pruneEnv) (operation PruneTest.query)
    = Settles l (Fulfilled r) /\
    errors (mkResult (Some PruneTest.returned) []) = errors r /\
    data (mkResult (Some PruneTest.returned) []) =
    option_map
      (cleanupResult
         (filteredDocumentOf (env := PruneTest.pruneEnv)
            (operation PruneTest.query)))
      (data r).
Proof.
  refine (returned_result_is_engine_result_pruned (env := PruneTest.pruneEnv)
            (operation PruneTest.query)
            (mkResult (Some PruneTest.returned) []) _).
  vm_compute. reflexivity.
Defined.

Lemma all_rules_pass_witness :
  now (snd (run (wrapExecuteFn PassTest.passEnv PassTest.args))) =
  slowest (preBehaviours (env := PassTest.passEnv) PassTest.args) + 1
  + slowest (postBehaviours (env := PassTest.passEnv) PassTest.args
               PreTest.answer).
Proof.
  refine (proj1 (proj2 (all_rules_pass_returns_pruned_data
                          (env := PassTest.passEnv) PassTest.args 1
                          (mkResult (Some PreTest.answer) []) PreTest.answer
                          _ _ _ _))).
  - vm_compute. reflexivity.
  - vm_compute. reflexivity.
  - reflexivity.
  - vm_compute. reflexivity.
Defined.

Lemma every_pre_rule_is_started_witness :
  In (0, EvRuleStarted PreExec 0 (mkPromise 3 (Fulfilled tt)))
     (trace (snd (PreTest.server rethrow))).
Proof.
  refine (every_pre_rule_is_started (env := testEnv PreTest.bindings rethrow)
            (operation PreTest.query) 0 3 (Fulfilled tt) _ _).
  - vm_compute. reflexivity.
  - vm_compute. reflexivity.
Defined.

Lemma sync_throw_stops_the_calls_witness :
  In (0, EvProcessError PreExec "TypeError")
     (trace (snd (run (wrapExecuteFn SyncTest.syncEnv
                         (operation SyncTest.query))))).
Proof.
  refine (proj1 (sync_throw_stops_the_calls (env := SyncTest.syncEnv)
                   (operation SyncTest.query)
                   [Settles 3 (Fulfilled tt)] "TypeError"
                   [Settles 3 (Fulfilled tt)] _ _)).
  - vm_compute. reflexivity.
  - reflexivity.
Defined.
